(** * KB1 MIDI Editor: the device communication stack

    A shallow embedding of the communication layer of the KB1 web
    configurator and the properties its specification states about it:

    - [Codec]: the preset protocol codec of [src/ble/kb1Protocol.ts]
      ([encodePresetSave], [encodePresetLoad], [encodePresetDelete],
      [decodePresetList]);
    - [MidiBle]: the rate-limited control channel ([midiBle.sendControlChange]);
    - [KeepAlive]: the activity tracker and the keep-alive service;
    - [BLE]: the transport session [BLEClient] with its device-preset
      operations;
    - [Throttle]: [throttle] of [src/utils/ActivityTracker.ts];
    - [DeviceState]: the device-preset part of the composable
      [useDeviceState] and [getDevicePreset] of [PresetManager].

    The platform functions the code calls ([TextEncoder], [TextDecoder],
    typed arrays, [DataView]) are modelled in [JS] after their standards
    (ECMAScript, WebIDL and the WHATWG Encoding Standard). *)

From Stdlib Require Import ZArith List Lia Bool String Ascii DecimalString
  DecimalZ.
From stdpp Require Import base list.

Open Scope Z_scope.

(** ** Completions: a call either returns a value or throws *)

Inductive ErrorKind := PlainError | RangeError | TypeError.

Record JSError := mkError { err_kind : ErrorKind; err_message : string }.

Inductive Completion (A : Type) :=
| Normal (a : A)
| Throw (e : JSError).
Arguments Normal {A} a.
Arguments Throw {A} e.

Definition cbind {A B} (c : Completion A) (k : A -> Completion B) : Completion B :=
  match c with
  | Normal a => k a
  | Throw e => Throw e
  end.

Notation "x <- c ;; k" := (cbind c (fun x => k))
  (at level 100, c at next level, right associativity).

(** ** The JavaScript platform *)

Module JS.

(** A JavaScript string is a sequence of UTF-16 code units. *)
Definition JSString := list Z.

(** A string literal of the source (ASCII only). *)
Fixpoint lit (s : string) : JSString :=
  match s with
  | EmptyString => []
  | String a r => Z.of_N (N_of_ascii a) :: lit r
  end.

(** [Number::toString] of an integer below 10^21 in magnitude: decimal
    digits with a leading minus sign for negatives. *)
Definition Number_toString (n : Z) : string :=
  NilZero.string_of_int (Z.to_int n).

(** [String.prototype.slice(0, n)]: the first [n] code units. *)
Definition slice0 (s : JSString) (n : nat) : JSString := take n s.

(** *** UTF-16 *)

Definition is_lead (c : Z) : bool := (0xD800 <=? c) && (c <=? 0xDBFF).
Definition is_trail (c : Z) : bool := (0xDC00 <=? c) && (c <=? 0xDFFF).

(** WebIDL, conversion of a DOMString to a USVString: surrogate pairs are
    combined, an unpaired surrogate becomes U+FFFD. *)
Fixpoint to_scalars (s : JSString) : list Z :=
  match s with
  | [] => []
  | c :: rest =>
      if is_lead c then
        match rest with
        | d :: rest' =>
            if is_trail d
            then (0x10000 + (c - 0xD800) * 0x400 + (d - 0xDC00)) :: to_scalars rest'
            else 0xFFFD :: to_scalars rest
        | [] => [0xFFFD]
        end
      else if is_trail c then 0xFFFD :: to_scalars rest
      else c :: to_scalars rest
  end.

(** A string is well formed when its code units are 16-bit and every
    surrogate is half of a pair. *)
Fixpoint well_formed (s : JSString) : bool :=
  match s with
  | [] => true
  | c :: rest =>
      if is_lead c then
        match rest with
        | d :: rest' => is_trail d && well_formed rest'
        | [] => false
        end
      else (0 <=? c) && (c <=? 0xFFFF) && negb (is_trail c) && well_formed rest
  end.

(** ECMAScript UTF16EncodeCodePoint and CodePointsToString. *)
Definition UTF16EncodeCodePoint (cp : Z) : list Z :=
  if cp <=? 0xFFFF then [cp]
  else [(cp - 0x10000) / 0x400 + 0xD800; (cp - 0x10000) mod 0x400 + 0xDC00].

Definition CodePointsToString (cps : list Z) : JSString :=
  flat_map UTF16EncodeCodePoint cps.

(** *** UTF-8 (WHATWG Encoding Standard) *)

(** The continuation bytes of the encoder: for [count] down to 1,
    [0x80 | ((cp >> (6 * (count - 1))) & 0x3F)]. *)
Fixpoint utf8_continuation (cp : Z) (count : nat) : list Z :=
  match count with
  | O => []
  | S k => Z.lor 0x80 (Z.land (Z.shiftr cp (6 * Z.of_nat k)) 0x3F)
             :: utf8_continuation cp k
  end.

Definition utf8_encode_code_point (cp : Z) : list Z :=
  if cp <=? 0x7F then [cp]
  else
    let '(count, offset) :=
      if cp <=? 0x7FF then (1%nat, 0xC0)
      else if cp <=? 0xFFFF then (2%nat, 0xE0)
      else (3%nat, 0xF0) in
    (Z.shiftr cp (6 * Z.of_nat count) + offset) :: utf8_continuation cp count.

Definition utf8_encode (cps : list Z) : list Z :=
  flat_map utf8_encode_code_point cps.

(** [new TextEncoder().encode(s)] *)
Definition TextEncoder_encode (s : JSString) : list Z :=
  utf8_encode (to_scalars s).

(** The state of the UTF-8 decoder. *)
Record Utf8Decoder := mkDecoder {
  code_point : Z;
  bytes_seen : Z;
  bytes_needed : Z;
  lower_boundary : Z;
  upper_boundary : Z
}.

Definition decoder0 : Utf8Decoder := mkDecoder 0 0 0 0x80 0xBF.

(** The handler on a byte when no bytes are needed: the new state and the
    code points emitted. *)
Definition utf8_lead (b : Z) : Utf8Decoder * list Z :=
  if (0x00 <=? b) && (b <=? 0x7F) then (decoder0, [b])
  else if (0xC2 <=? b) && (b <=? 0xDF) then
    (mkDecoder (Z.land b 0x1F) 0 1 0x80 0xBF, [])
  else if (0xE0 <=? b) && (b <=? 0xEF) then
    (mkDecoder (Z.land b 0xF) 0 2
       (if b =? 0xE0 then 0xA0 else 0x80)
       (if b =? 0xED then 0x9F else 0xBF), [])
  else if (0xF0 <=? b) && (b <=? 0xF4) then
    (mkDecoder (Z.land b 0x7) 0 3
       (if b =? 0xF0 then 0x90 else 0x80)
       (if b =? 0xF4 then 0x8F else 0xBF), [])
  else (decoder0, [0xFFFD]).

(** The handler on a byte. A byte outside the boundaries ends the pending
    sequence with U+FFFD and is handled again from the reset state. *)
Definition utf8_step (d : Utf8Decoder) (b : Z) : Utf8Decoder * list Z :=
  if bytes_needed d =? 0 then utf8_lead b
  else if (b <? lower_boundary d) || (upper_boundary d <? b) then
    let '(d', out) := utf8_lead b in (d', 0xFFFD :: out)
  else
    let cp := Z.lor (Z.shiftl (code_point d) 6) (Z.land b 0x3F) in
    let seen := bytes_seen d + 1 in
    if seen =? bytes_needed d then (decoder0, [cp])
    else (mkDecoder cp seen (bytes_needed d) 0x80 0xBF, []).

(** The decoder run to the end of the input; a pending sequence at the end
    of the input gives U+FFFD. *)
Fixpoint utf8_run (d : Utf8Decoder) (bytes : list Z) : list Z :=
  match bytes with
  | [] => if bytes_needed d =? 0 then [] else [0xFFFD]
  | b :: rest => let '(d', out) := utf8_step d b in out ++ utf8_run d' rest
  end.

Definition utf8_decode (bytes : list Z) : list Z := utf8_run decoder0 bytes.

(** A leading U+FEFF is a byte order mark and is not part of the output
    (the decoder is created with [ignoreBOM] false). *)
Definition strip_BOM (cps : list Z) : list Z :=
  match cps with
  | 0xFEFF :: rest => rest
  | _ => cps
  end.

(** [new TextDecoder().decode(bytes)] *)
Definition TextDecoder_decode (bytes : list Z) : JSString :=
  CodePointsToString (strip_BOM (utf8_decode bytes)).

(** Unicode scalar values, and the ASCII code units. *)
Definition is_scalar (cp : Z) : Prop :=
  0 <= cp < 0x110000 /\ ~ (0xD800 <= cp <= 0xDFFF).

Definition is_ascii (c : Z) : Prop := c <= 0x7F.

(** *** Typed arrays and DataView *)

(** An [ArrayBuffer] or a [Uint8Array] is its list of bytes, each in
    [0, 256). Storing a number in a [Uint8Array] keeps it modulo 256. *)
Definition ToUint8 (n : Z) : Z := n mod 256.

(** [new Uint8Array(n)] *)
Definition Uint8Array_new (n : nat) : list Z := replicate n 0.

(** [new Uint8Array([x])] *)
Definition Uint8Array_of (xs : list Z) : list Z := map ToUint8 xs.

(** [target.set(source, offset)]: a [RangeError] when the source does not
    fit, the bytes copied otherwise. *)
Definition Uint8Array_set (target source : list Z) (offset : nat)
  : Completion (list Z) :=
  if (length target <? length source + offset)%nat
  then Throw (mkError RangeError "offset is out of bounds")
  else Normal (take offset target ++ source
                 ++ drop (offset + length source) target).

(** [new Uint8Array(buffer, byteOffset, length)]: a view on the bytes of the
    buffer; a [RangeError] when it would end after the buffer. *)
Definition Uint8Array_view (buffer : list Z) (byteOffset len : nat)
  : Completion (list Z) :=
  if (length buffer <? byteOffset + len)%nat
  then Throw (mkError RangeError "Invalid typed array length")
  else Normal (take len (drop byteOffset buffer)).

(** [a.indexOf(x)]: the first index of [x], or -1. *)
Fixpoint indexOf (a : list Z) (x : Z) : Z :=
  match a with
  | [] => -1
  | y :: r => if y =? x then 0
              else let i := indexOf r x in if i <? 0 then -1 else i + 1
  end.

(** [a.slice(0, n)] for a non-negative [n]. *)
Definition Uint8Array_slice0 (a : list Z) (n : Z) : list Z := take (Z.to_nat n) a.

(** A [DataView] is a window on a buffer. *)
Record DataView := mkDataView {
  buffer : list Z;
  byteOffset : nat;
  byteLength : nat
}.

(** The view on a whole buffer, as [readValue()] returns it. *)
Definition DataView_of (bytes : list Z) : DataView :=
  mkDataView bytes 0 (length bytes).

Definition getUint8 (v : DataView) (pos : nat) : Completion Z :=
  if (byteLength v <? pos + 1)%nat
  then Throw (mkError RangeError "Offset is outside the bounds of the DataView")
  else Normal (nth (byteOffset v + pos) (buffer v) 0).

(** [v.getUint32(pos, true)]: four bytes, little-endian, unsigned. *)
Definition getUint32_le (v : DataView) (pos : nat) : Completion Z :=
  if (byteLength v <? pos + 4)%nat
  then Throw (mkError RangeError "Offset is outside the bounds of the DataView")
  else
    let byte i := nth (byteOffset v + pos + i) (buffer v) 0 in
    Normal (byte 0%nat + byte 1%nat * 2 ^ 8 + byte 2%nat * 2 ^ 16
            + byte 3%nat * 2 ^ 24).

End JS.

(** ** The preset protocol codec ([src/ble/kb1Protocol.ts]) *)

Module Codec.
Import JS.

(** [DEVICE_PRESET] *)
Definition MAX_SLOTS : Z := 8.
Definition NAME_MAX_LENGTH : nat := 32.
Definition EMPTY_SLOT_NAME : JSString := lit "[Empty]".

Record DevicePresetMetadata := mkMetadata {
  slot : Z;
  name : JSString;
  timestamp : Z;
  isValid : bool
}.

Definition invalid_slot (slot : Z) : JSError :=
  mkError PlainError ("Invalid slot: " ++ Number_toString slot).

(** [encodePresetSave(slot, name)], format [[slot#(1 byte)][name(32 bytes)]]. *)
Definition encodePresetSave (slot : Z) (name : JSString) : Completion (list Z) :=
  if (slot <? 0) || (slot >=? MAX_SLOTS) then Throw (invalid_slot slot)
  else
    let buffer := Uint8Array_new 33 in
    let buffer := <[0%nat := ToUint8 slot]> buffer in
    let nameBytes := TextEncoder_encode (slice0 name NAME_MAX_LENGTH) in
    buffer <- Uint8Array_set buffer nameBytes 1 ;;
    Normal buffer.

(** [encodePresetLoad(slot)], format [[slot#(1 byte)]]. *)
Definition encodePresetLoad (slot : Z) : Completion (list Z) :=
  if (slot <? 0) || (slot >=? MAX_SLOTS) then Throw (invalid_slot slot)
  else Normal (Uint8Array_of [slot]).

(** [encodePresetDelete(slot)], format [[slot#(1 byte)]]. *)
Definition encodePresetDelete (slot : Z) : Completion (list Z) :=
  if (slot <? 0) || (slot >=? MAX_SLOTS) then Throw (invalid_slot slot)
  else Normal (Uint8Array_of [slot]).

Definition METADATA_SIZE : nat := 40.

(** The body of the loop of [decodePresetList] for one slot. *)
Definition decodePreset (data : DataView) (slot : nat)
  : Completion DevicePresetMetadata :=
  let offset := (slot * METADATA_SIZE)%nat in
  nameBytes <- Uint8Array_view (buffer data) offset 32 ;;
  let nullIndex := indexOf nameBytes 0 in
  let name := TextDecoder_decode
                (if nullIndex >=? 0 then Uint8Array_slice0 nameBytes nullIndex
                 else nameBytes) in
  timestamp <- getUint32_le data (offset + 32) ;;
  b <- getUint8 data (offset + 36) ;;
  let isValid := b =? 1 in
  Normal (mkMetadata (Z.of_nat slot)
            (match name with [] => EMPTY_SLOT_NAME | _ => name end)
            timestamp isValid).

(** The loop [for (let slot = s; slot < MAX_SLOTS; slot++)] with [todo]
    iterations left, pushing onto [presets]. *)
Fixpoint decodePresetLoop (data : DataView) (slot todo : nat)
    (presets : list DevicePresetMetadata)
  : Completion (list DevicePresetMetadata) :=
  match todo with
  | O => Normal presets
  | S todo' =>
      p <- decodePreset data slot ;;
      decodePresetLoop data (S slot) todo' (presets ++ [p])
  end.

(** [decodePresetList(data)] *)
Definition decodePresetList (data : DataView)
  : Completion (list DevicePresetMetadata) :=
  decodePresetLoop data 0 (Z.to_nat MAX_SLOTS) [].

(** *** The preset list frame

    The frame the firmware answers with, as [decodePresetList] documents
    it: per slot 32 bytes of name (UTF-8, zero padded), 4 bytes of
    little-endian timestamp, 1 byte [isValid] and 3 bytes of padding. *)

Record PresetRecord := mkRecord {
  rec_name : JSString;
  rec_timestamp : Z;
  rec_isValid : bool;
  rec_reserved : list Z
}.

(** A name the 32-byte field can hold: well-formed text with no NUL, whose
    UTF-8 encoding has at most 32 bytes, and which does not begin with the
    byte order mark. *)
Definition valid_name (nm : JSString) : bool :=
  well_formed nm
  && forallb (fun c => negb (c =? 0)) nm
  && negb (match nm with c :: _ => c =? 0xFEFF | [] => false end)
  && (length (TextEncoder_encode nm) <=? 32)%nat.

Definition valid_record (r : PresetRecord) : bool :=
  valid_name (rec_name r)
  && (0 <=? rec_timestamp r) && (rec_timestamp r <? 2 ^ 32)
  && (length (rec_reserved r) =? 3)%nat.

Definition name_field (nm : JSString) : list Z :=
  let bytes := TextEncoder_encode nm in
  bytes ++ replicate (32 - length bytes) 0.

Definition uint32_le (n : Z) : list Z :=
  [n mod 256; (n / 2 ^ 8) mod 256; (n / 2 ^ 16) mod 256; (n / 2 ^ 24) mod 256].

Definition record_bytes (r : PresetRecord) : list Z :=
  name_field (rec_name r) ++ uint32_le (rec_timestamp r)
  ++ [if rec_isValid r then 1 else 0] ++ rec_reserved r.

Definition list_frame (rs : list PresetRecord) : list Z :=
  flat_map record_bytes rs.

(** The name field as the specification words it: the UTF-8 encoding of
    the name, truncated to 32 bytes if longer, zero padded if shorter. *)
Definition spec_name_field (nm : JSString) : list Z :=
  take 32 (TextEncoder_encode nm ++ replicate 32 0).

(** The record of slot [i] with its name as it is stored. *)
Definition metadata_as_stored (i : nat) (r : PresetRecord)
  : DevicePresetMetadata :=
  mkMetadata (Z.of_nat i) (rec_name r) (rec_timestamp r) (rec_isValid r).

(** A preset list: a short name, a name that fills the 32 bytes, a name
    outside ASCII (two, three and four bytes of UTF-8) and five empty
    slots. *)
Definition example_records : list PresetRecord :=
  [mkRecord (lit "Lead") 1700000000 true [0; 0; 0];
   mkRecord (lit "A name of exactly 32 bytes, full") 4294967295 true [0; 0; 0];
   mkRecord [0x50; 0xE9; 0x20AC; 0xD83C; 0xDFB9] 1 false [1; 2; 3];
   mkRecord [] 0 false [0; 0; 0]; mkRecord [] 0 false [0; 0; 0];
   mkRecord [] 0 false [0; 0; 0]; mkRecord [] 0 false [0; 0; 0];
   mkRecord [] 0 false [0; 0; 0]].

(** What the codec returns for the record of slot [i]. *)
Definition metadata_of (i : nat) (r : PresetRecord) : DevicePresetMetadata :=
  mkMetadata (Z.of_nat i)
    (match rec_name r with [] => EMPTY_SLOT_NAME | nm => nm end)
    (rec_timestamp r) (rec_isValid r).

End Codec.

(** ** The rate-limited control channel ([midiBle]) *)

Module MidiBle.
Import JS.

(** Handles of the Web Bluetooth objects. *)
Definition BluetoothDevice := nat.
Definition GATTServer := nat.
Definition GATTCharacteristic := nat.

(** The module state. Clock readings ([performance.now()]) are in
    milliseconds and are taken as integers, as the synthetic clock of the
    tests gives them; the code only subtracts and compares them. *)
Record MidiBleState := mkState {
  device : option BluetoothDevice;
  server : option GATTServer;
  characteristic : option GATTCharacteristic;
  lastSendMs : Z;
  minIntervalMs : Z
}.

Definition state0 : MidiBleState := mkState None None None 0 8.

(** What one call did: the state it leaves, the transport writes it
    issued, and how its promise settled. *)
Record Outcome := mkOutcome {
  next : MidiBleState;
  writes : list (GATTCharacteristic * list Z);
  settled : Completion unit
}.

(** What the platform answers to one [connect()]. *)
Record ConnectEnv := mkConnectEnv {
  has_bluetooth : bool;
  requestDevice : Completion BluetoothDevice;
  gatt_connect : Completion (option GATTServer);
  getPrimaryService : Completion unit;
  getCharacteristic : Completion GATTCharacteristic
}.

(** [midiBle.connect()]: the state is assigned only when every step
    succeeded. *)
Definition connect (env : ConnectEnv) (st : MidiBleState) : Outcome :=
  if negb (has_bluetooth env)
  then mkOutcome st [] (Throw (mkError PlainError "Web Bluetooth not supported."))
  else
    let r :=
      device <- requestDevice env ;;
      server <- gatt_connect env ;;
      match server with
      | None => Throw (mkError PlainError "Failed to connect to GATT server.")
      | Some server =>
          _ <- getPrimaryService env ;;
          characteristic <- getCharacteristic env ;;
          Normal (device, server, characteristic)
      end in
    match r with
    | Throw e => mkOutcome st [] (Throw e)
    | Normal (d, sv, ch) =>
        mkOutcome (mkState (Some d) (Some sv) (Some ch)
                     (lastSendMs st) (minIntervalMs st)) [] (Normal tt)
    end.

(** [midiBle.disconnect()], and the [gattserverdisconnected] listener. *)
Definition disconnect (st : MidiBleState) : Outcome :=
  mkOutcome (mkState None None None (lastSendMs st) (minIntervalMs st))
    [] (Normal tt).

(** The frame [enc.encode(`${cc},${value}`)]. *)
Definition cc_frame (cc value : Z) : list Z :=
  TextEncoder_encode
    (lit (Number_toString cc ++ "," ++ Number_toString value)).

(** [midiBle.sendControlChange(cc, value)] called when the clock reads
    [now]; [io] is how [writeValueWithoutResponse] settles if it is
    called. *)
Definition sendControlChange (now : Z) (io : Completion unit) (cc value : Z)
    (st : MidiBleState) : Outcome :=
  if now - lastSendMs st <? minIntervalMs st then mkOutcome st [] (Normal tt)
  else
    let st := mkState (device st) (server st) (characteristic st)
                now (minIntervalMs st) in
    match characteristic st with
    | None => mkOutcome st [] (Throw (mkError PlainError "Not connected"))
    | Some ch => mkOutcome st [(ch, cc_frame cc value)] io
    end.

(** A session: calls of the module in the order they are made. *)
Inductive Call :=
| CallConnect (env : ConnectEnv)
| CallDisconnect
| CallSend (now : Z) (io : Completion unit) (cc value : Z).

Definition call (c : Call) (st : MidiBleState) : Outcome :=
  match c with
  | CallConnect env => connect env st
  | CallDisconnect => disconnect st
  | CallSend now io cc value => sendControlChange now io cc value st
  end.

(** The state and the transport writes after a session. *)
Fixpoint run (cs : list Call) (st : MidiBleState)
  : MidiBleState * list (GATTCharacteristic * list Z) :=
  match cs with
  | [] => (st, [])
  | c :: cs =>
      let o := call c st in
      let '(st', ws) := run cs (next o) in (st', writes o ++ ws)
  end.

(** The clock reading of the last send of a session whose write went
    through, if any. *)
Fixpoint last_successful_send (cs : list Call) (st : MidiBleState)
    (last : option Z) : option Z :=
  match cs with
  | [] => last
  | c :: cs =>
      let o := call c st in
      let last :=
        match c, writes o, settled o with
        | CallSend now _ _ _, _ :: _, Normal _ => Some now
        | _, _, _ => last
        end in
      last_successful_send cs (next o) last
  end.

Definition is_send (c : Call) : bool :=
  match c with CallSend _ _ _ _ => true | _ => false end.

(** A platform on which [connect()] succeeds. *)
Definition good_env : ConnectEnv :=
  mkConnectEnv true (Normal 1%nat) (Normal (Some 2%nat)) (Normal tt)
    (Normal 3%nat).

End MidiBle.

(** ** The activity tracker ([utils/ActivityTracker.ts]) *)

Module ActivityTracker.

(** The time of the last interaction ([Date.now()], integer milliseconds)
    and whether the listeners are attached. The throttle of
    [throttledUpdate] only decides at which events [updateActivity] runs. *)
Record t := mk {
  lastActivity : Z;
  isActive : bool;
  throttleDelay : Z
}.

Definition start (now : Z) (tr : t) : t :=
  if isActive tr then tr else mk now true (throttleDelay tr).

Definition stop (tr : t) : t :=
  if negb (isActive tr) then tr
  else mk (lastActivity tr) false (throttleDelay tr).

Definition updateActivity (now : Z) (tr : t) : t :=
  mk now (isActive tr) (throttleDelay tr).

Definition getTimeSinceActivity (now : Z) (tr : t) : Z :=
  now - lastActivity tr.

Definition getLastActivity (tr : t) : Z := lastActivity tr.

Definition isTracking (tr : t) : bool := isActive tr.

End ActivityTracker.

(** ** The keep-alive service *)

Module KeepAlive.

(** [KeepAliveConfig]: every field is optional. *)
Record KeepAliveConfig := mkConfig {
  cfg_pingInterval : option Z;
  cfg_activityTimeout : option Z;
  cfg_throttleDelay : option Z
}.

(** A ping callback is known by its handle; a timer by the handle
    [setInterval] returned, a positive integer. *)
Definition Callback := nat.
Definition TimerId := positive.

Record KeepAliveService := mkService {
  pingInterval : option TimerId;
  activityTracker : ActivityTracker.t;
  sendPingCallback : option Callback;
  isRunning : bool;
  PING_INTERVAL : Z;
  ACTIVITY_TIMEOUT : Z
}.

(** What the service does to the outside. *)
Inductive Effect :=
| PingCalled (cb : Callback)
| TimerSet (id : TimerId) (period : Z)
| TimerCleared (id : TimerId)
| ConsoleLog (msg : string)
| ConsoleWarn (msg : string)
| ConsoleError (msg : string).

(** [new KeepAliveService(config)] at time [now]. *)
Definition new (now : Z) (config : KeepAliveConfig) : KeepAliveService :=
  mkService None
    (ActivityTracker.mk now false (default 500 (cfg_throttleDelay config)))
    None false
    (default 45000 (cfg_pingInterval config))
    (default 120000 (cfg_activityTimeout config)).

Definition with_tracker (tr : ActivityTracker.t) (s : KeepAliveService) :=
  mkService (pingInterval s) tr (sendPingCallback s) (isRunning s)
    (PING_INTERVAL s) (ACTIVITY_TIMEOUT s).

Definition setPingCallback (cb : Callback) (s : KeepAliveService)
  : KeepAliveService :=
  mkService (pingInterval s) (activityTracker s) (Some cb) (isRunning s)
    (PING_INTERVAL s) (ACTIVITY_TIMEOUT s).

(** [startKeepAlive()] at time [now]; [id] is the handle [setInterval]
    returns. *)
Definition startKeepAlive (now : Z) (id : TimerId) (s : KeepAliveService)
  : KeepAliveService * list Effect :=
  if isRunning s then (s, [ConsoleLog "Keep-alive already running"])
  else
    match sendPingCallback s with
    | None => (s, [ConsoleError "Cannot start keep-alive: no ping callback set"])
    | Some cb =>
        (mkService (Some id) (ActivityTracker.start now (activityTracker s)) (Some cb)
           true (PING_INTERVAL s) (ACTIVITY_TIMEOUT s),
         (if ActivityTracker.isActive (activityTracker s) then []
          else [ConsoleLog "Activity tracking started"])
         ++ [TimerSet id (PING_INTERVAL s);
             ConsoleLog "Keep-alive started (ping every 45s, stop after 2min inactivity)"])
    end.

Definition stopKeepAlive (s : KeepAliveService)
  : KeepAliveService * list Effect :=
  if negb (isRunning s) then (s, [])
  else
    (mkService None (ActivityTracker.stop (activityTracker s)) (sendPingCallback s)
       false (PING_INTERVAL s) (ACTIVITY_TIMEOUT s),
     match pingInterval s with Some id => [TimerCleared id] | None => [] end
     ++ (if ActivityTracker.isActive (activityTracker s)
         then [ConsoleLog "Activity tracking stopped"] else [])
     ++ [ConsoleLog "Keep-alive stopped"]).

(** [isActive()] *)
Definition isActive (s : KeepAliveService) : bool := isRunning s.

(** [getTimeSinceActivity()] *)
Definition getTimeSinceActivity (now : Z) (s : KeepAliveService) : Z :=
  ActivityTracker.getTimeSinceActivity now (activityTracker s).

Definition shouldSendPing (now : Z) (s : KeepAliveService) : bool :=
  let timeSinceActivity := ActivityTracker.getTimeSinceActivity now (activityTracker s) in
  timeSinceActivity <? ACTIVITY_TIMEOUT s.

(** How the ping callback behaves when it is called. *)
Inductive PingOutcome :=
| PingResolves
| PingRejects (e : JSError)
| PingThrows (e : JSError).

(** [sendPing()]: whatever the callback does, the promise resolves. *)
Definition sendPing (o : PingOutcome) (s : KeepAliveService)
  : list Effect * Completion unit :=
  match sendPingCallback s with
  | None => ([ConsoleError "No ping callback set"], Normal tt)
  | Some cb =>
      match o with
      | PingResolves => ([PingCalled cb], Normal tt)
      | PingRejects e | PingThrows e =>
          ([PingCalled cb; ConsoleWarn "Keep-alive ping failed:"], Normal tt)
      end
  end.

Definition checkAndSendPing (now : Z) (o : PingOutcome) (s : KeepAliveService)
  : list Effect * Completion unit :=
  if negb (shouldSendPing now s)
  then ([ConsoleLog "Skipping ping - no recent activity"], Normal tt)
  else sendPing o s.

(** What can happen to a service: the calls of its interface, an
    interaction of the user, and a tick of the interval timer, which runs
    [checkAndSendPing] while the timer is set. *)
Inductive Step :=
| DoSetPingCallback (cb : Callback)
| DoStart (now : Z) (id : TimerId)
| DoStop
| DoActivity (now : Z)
| DoTick (now : Z) (o : PingOutcome).

(** The result of a step: the state, the effects, and how the step ended
    for the event loop that ran it. *)
Definition step (st : Step) (s : KeepAliveService)
  : KeepAliveService * list Effect * Completion unit :=
  match st with
  | DoSetPingCallback cb => (setPingCallback cb s, [], Normal tt)
  | DoStart now id => let '(s', es) := startKeepAlive now id s in (s', es, Normal tt)
  | DoStop => let '(s', es) := stopKeepAlive s in (s', es, Normal tt)
  | DoActivity now =>
      (with_tracker (ActivityTracker.updateActivity now (activityTracker s)) s, [],
       Normal tt)
  | DoTick now o =>
      match pingInterval s with
      | None => (s, [], Normal tt)
      | Some _ => let '(es, r) := checkAndSendPing now o s in (s, es, r)
      end
  end.

Fixpoint steps (sts : list Step) (s : KeepAliveService) : KeepAliveService :=
  match sts with
  | [] => s
  | st :: sts => steps sts (fst (fst (step st s)))
  end.

(** The states a service created with [config] can be in. *)
Definition reachable (config : KeepAliveConfig) (s : KeepAliveService) : Prop :=
  exists now sts, s = steps sts (new now config).

Definition pinged (es : list Effect) : bool :=
  existsb (fun e => match e with PingCalled _ => true | _ => false end) es.

Definition ping_fails (o : PingOutcome) : Prop :=
  match o with PingResolves => False | _ => True end.

(** While the timer is set the service is running and has its callback. *)
Definition armed_inv (s : KeepAliveService) : Prop :=
  isRunning s = true <-> pingInterval s <> None.

Definition callback_inv (s : KeepAliveService) : Prop :=
  pingInterval s <> None -> sendPingCallback s <> None.

(** A service with the default configuration, started at time 0. *)
Definition started : KeepAliveService :=
  steps [DoSetPingCallback 1%nat; DoStart 0 1%positive]
    (new 0 (mkConfig None None None)).

End KeepAlive.

(** ** The transport session ([BLEClient]) with the device presets *)

Module BLE.
Import JS.

Definition KB1_SERVICE_UUID : string := "03b80e5a-ede8-4b33-a751-6ce34ec4c700".
Definition KB1_CHARACTERISTIC_UUID : string := "7772e5db-3868-4112-a1a9-f2669d106bf3".

(** [PRESET_CHARACTERISTIC_UUIDS] *)
Definition SAVE : string := "d3a7b321-0001-4000-8000-000000000009".
Definition LOAD : string := "d3a7b321-0001-4000-8000-00000000000a".
Definition LIST : string := "d3a7b321-0001-4000-8000-00000000000b".
Definition DELETE : string := "d3a7b321-0001-4000-8000-00000000000c".

(** A [BluetoothDevice]: its identity and, when it has a [gatt], whether
    the link is connected. *)
Record BluetoothDevice := mkDevice {
  dev_id : nat;
  dev_gatt : option bool
}.

Definition GATTServer := nat.
Definition GATTCharacteristic := nat.
Definition Callback := nat.

Record BLEConnectionStatus := mkStatus {
  connected : bool;
  status_device : option BluetoothDevice;
  error : option string
}.

Record BLEClient := mkClient {
  device : option BluetoothDevice;
  server : option GATTServer;
  characteristic : option GATTCharacteristic;
  onStatusChange : option Callback;
  onDataReceived : option Callback;
  presetSaveCharacteristic : option GATTCharacteristic;
  presetLoadCharacteristic : option GATTCharacteristic;
  presetListCharacteristic : option GATTCharacteristic;
  presetDeleteCharacteristic : option GATTCharacteristic
}.

(** [new BLEClient()] *)
Definition client0 : BLEClient :=
  mkClient None None None None None None None None None.

(** What the client does to the outside. A console message is its first
    argument; the error object some of them print after it is left out. *)
Inductive Effect :=
| StatusChanged (cb : Callback) (status : BLEConnectionStatus)
| GattDisconnect (dev : nat)
| ListenerAdded (target : string)
| ListenerRemoved (target : string)
| Written (ch : GATTCharacteristic) (data : list Z)
| ReadFrom (ch : GATTCharacteristic)
| ConsoleLog (msg : JSString)
| ConsoleWarn (msg : JSString)
| ConsoleError (msg : JSString).

(** *** Methods: state, effects and exceptions *)

Definition M (A : Type) : Type :=
  BLEClient -> Completion A * BLEClient * list Effect.

Definition ret {A} (a : A) : M A := fun c => (Normal a, c, []).

Definition throw {A} (e : JSError) : M A := fun c => (Throw e, c, []).

Definition bind {A B} (m : M A) (k : A -> M B) : M B :=
  fun c =>
    match m c with
    | (Normal a, c', es) =>
        let '(r, c'', es') := k a c' in (r, c'', es ++ es')
    | (Throw e, c', es) => (Throw e, c', es)
    end.

Notation "x <~ m ;; k" := (bind m (fun x => k))
  (at level 100, m at next level, right associativity).

Definition try_catch {A} (m : M A) (handler : JSError -> M A) : M A :=
  fun c =>
    match m c with
    | (Normal a, c', es) => (Normal a, c', es)
    | (Throw e, c', es) =>
        let '(r, c'', es') := handler e c' in (r, c'', es ++ es')
    end.

Definition get : M BLEClient := fun c => (Normal c, c, []).
Definition modify (f : BLEClient -> BLEClient) : M unit :=
  fun c => (Normal tt, f c, []).
Definition emit (e : Effect) : M unit := fun c => (Normal tt, c, [e]).

(** The answer of the platform to an awaited call. *)
Definition await {A} (answer : Completion A) : M A :=
  fun c => (answer, c, []).

(** Assignments to the fields. *)
Definition set_device (d : option BluetoothDevice) (c : BLEClient) :=
  mkClient d (server c) (characteristic c) (onStatusChange c)
    (onDataReceived c) (presetSaveCharacteristic c)
    (presetLoadCharacteristic c) (presetListCharacteristic c)
    (presetDeleteCharacteristic c).
Definition set_server (v : option GATTServer) (c : BLEClient) :=
  mkClient (device c) v (characteristic c) (onStatusChange c)
    (onDataReceived c) (presetSaveCharacteristic c)
    (presetLoadCharacteristic c) (presetListCharacteristic c)
    (presetDeleteCharacteristic c).
Definition set_characteristic (v : option GATTCharacteristic) (c : BLEClient) :=
  mkClient (device c) (server c) v (onStatusChange c)
    (onDataReceived c) (presetSaveCharacteristic c)
    (presetLoadCharacteristic c) (presetListCharacteristic c)
    (presetDeleteCharacteristic c).
Definition set_presetSave (v : option GATTCharacteristic) (c : BLEClient) :=
  mkClient (device c) (server c) (characteristic c) (onStatusChange c)
    (onDataReceived c) v (presetLoadCharacteristic c)
    (presetListCharacteristic c) (presetDeleteCharacteristic c).
Definition set_presetLoad (v : option GATTCharacteristic) (c : BLEClient) :=
  mkClient (device c) (server c) (characteristic c) (onStatusChange c)
    (onDataReceived c) (presetSaveCharacteristic c) v
    (presetListCharacteristic c) (presetDeleteCharacteristic c).
Definition set_presetList (v : option GATTCharacteristic) (c : BLEClient) :=
  mkClient (device c) (server c) (characteristic c) (onStatusChange c)
    (onDataReceived c) (presetSaveCharacteristic c)
    (presetLoadCharacteristic c) v (presetDeleteCharacteristic c).
Definition set_presetDelete (v : option GATTCharacteristic) (c : BLEClient) :=
  mkClient (device c) (server c) (characteristic c) (onStatusChange c)
    (onDataReceived c) (presetSaveCharacteristic c)
    (presetLoadCharacteristic c) (presetListCharacteristic c) v.

Definition setStatusChangeCallback (cb : Callback) : M unit :=
  modify (fun c =>
    mkClient (device c) (server c) (characteristic c) (Some cb)
      (onDataReceived c) (presetSaveCharacteristic c)
      (presetLoadCharacteristic c) (presetListCharacteristic c)
      (presetDeleteCharacteristic c)).

Definition setDataReceivedCallback (cb : Callback) : M unit :=
  modify (fun c =>
    mkClient (device c) (server c) (characteristic c) (onStatusChange c)
      (Some cb) (presetSaveCharacteristic c)
      (presetLoadCharacteristic c) (presetListCharacteristic c)
      (presetDeleteCharacteristic c)).

(** [notifyStatusChange(connected, error)] *)
Definition notifyStatusChange (connected : bool) (error : option string)
  : M unit :=
  c <~ get ;;
  match onStatusChange c with
  | Some cb => emit (StatusChanged cb (mkStatus connected (device c) error))
  | None => ret tt
  end.

(** [cleanup()]: the device is kept, to preserve the device info. *)
Definition cleanup : M unit :=
  c <~ get ;;
  _ <~ match characteristic c with
       | Some _ => emit (ListenerRemoved "characteristicvaluechanged")
       | None => ret tt
       end ;;
  _ <~ modify (set_characteristic None) ;;
  modify (set_server None).

(** [disconnect()] *)
Definition disconnect : M unit :=
  c <~ get ;;
  _ <~ match device c with
       | Some (mkDevice id (Some true)) =>
           _ <~ emit (GattDisconnect id) ;;
           modify (set_device (Some (mkDevice id (Some false))))
       | _ => ret tt
       end ;;
  _ <~ cleanup ;;
  notifyStatusChange false None.

(** [onDisconnected()], the [gattserverdisconnected] listener: the platform
    has closed the link of the device. *)
Definition onDisconnected : M unit :=
  _ <~ modify (fun c =>
         match device c with
         | Some (mkDevice id (Some _)) =>
             set_device (Some (mkDevice id (Some false))) c
         | _ => c
         end) ;;
  _ <~ emit (ConsoleLog (lit "Device disconnected")) ;;
  _ <~ cleanup ;;
  notifyStatusChange false None.

(** [getStatus()] *)
Definition getStatus (c : BLEClient) : BLEConnectionStatus :=
  mkStatus
    (match device c with
     | Some (mkDevice _ (Some b)) => b
     | _ => false
     end)
    (device c) None.

(** [hasDevicePresetSupport()] *)
Definition hasDevicePresetSupport (c : BLEClient) : bool :=
  match presetSaveCharacteristic c with Some _ => true | None => false end.

(** What the platform answers during one [connect()]. *)
Record ConnectEnv := mkConnectEnv {
  bluetooth_available : bool;
  requestDevice : Completion (option BluetoothDevice);
  gatt_connect : Completion GATTServer;
  getPrimaryService : Completion unit;
  getCharacteristic : string -> Completion GATTCharacteristic;
  startNotifications : Completion unit
}.

(** The discovery of the preset characteristics added to [connect()]: the
    first failure ends it, and is not fatal. *)
Definition discoverPresets (env : ConnectEnv) : M unit :=
  try_catch
    (ch <~ await (getCharacteristic env SAVE) ;;
     _ <~ modify (set_presetSave (Some ch)) ;;
     ch <~ await (getCharacteristic env LOAD) ;;
     _ <~ modify (set_presetLoad (Some ch)) ;;
     ch <~ await (getCharacteristic env LIST) ;;
     _ <~ modify (set_presetList (Some ch)) ;;
     ch <~ await (getCharacteristic env DELETE) ;;
     _ <~ modify (set_presetDelete (Some ch)) ;;
     emit (ConsoleLog (lit "Device preset characteristics discovered")))
    (fun _ =>
     emit (ConsoleWarn
            (lit "Device preset characteristics not available (older firmware?)"))).

(** [connect()] *)
Definition connect (env : ConnectEnv) : M unit :=
  if negb (bluetooth_available env) then
    let error := "Web Bluetooth is not supported in this browser"%string in
    _ <~ notifyStatusChange false (Some error) ;;
    throw (mkError PlainError error)
  else
    try_catch
      (d <~ await (requestDevice env) ;;
       _ <~ modify (set_device d) ;;
       match d with
       | None => throw (mkError PlainError "No device selected")
       | Some (mkDevice id gatt) =>
           _ <~ emit (ListenerAdded "gattserverdisconnected") ;;
           sv <~ match gatt with
                 | None => throw (mkError TypeError
                             "Cannot read properties of undefined (reading 'connect')")
                 | Some _ =>
                     sv <~ await (gatt_connect env) ;;
                     _ <~ modify (set_device (Some (mkDevice id (Some true)))) ;;
                     ret sv
                 end ;;
           _ <~ modify (set_server (Some sv)) ;;
           _ <~ await (getPrimaryService env) ;;
           ch <~ await (getCharacteristic env KB1_CHARACTERISTIC_UUID) ;;
           _ <~ modify (set_characteristic (Some ch)) ;;
           _ <~ discoverPresets env ;;
           _ <~ try_catch
                  (_ <~ await (startNotifications env) ;;
                   emit (ListenerAdded "characteristicvaluechanged"))
                  (fun _ => emit (ConsoleWarn (lit "Notifications not supported:"))) ;;
           notifyStatusChange true None
       end)
      (fun error =>
       _ <~ notifyStatusChange false (Some (err_message error)) ;;
       throw error).

Definition not_connected : JSError :=
  mkError PlainError "Not connected to device".

(** [sendData(data)]; [io] is how [writeValue] settles. *)
Definition sendData (io : Completion unit) (data : list Z) : M unit :=
  c <~ get ;;
  match characteristic c with
  | None => throw not_connected
  | Some ch =>
      try_catch
        (_ <~ emit (Written ch data) ;; await io)
        (fun error =>
         _ <~ emit (ConsoleError (lit "Failed to send data:")) ;; throw error)
  end.

(** [readData()]; [io] is how [readValue] settles. *)
Definition readData (io : Completion DataView) : M DataView :=
  c <~ get ;;
  match characteristic c with
  | None => throw not_connected
  | Some ch =>
      try_catch
        (_ <~ emit (ReadFrom ch) ;; await io)
        (fun error =>
         _ <~ emit (ConsoleError (lit "Failed to read data:")) ;; throw error)
  end.

Definition presets_unsupported : JSError :=
  mkError PlainError "Device presets not supported".

(** Lift a pure computation that may throw. *)
Definition pure {A} (r : Completion A) : M A := await r.

(** [keeps P m Q]: from a state in [P], the method [m] ends, normally or by
    throwing, in a state in [Q]. *)
Definition after {A} (m : M A) (c : BLEClient) : BLEClient := snd (fst (m c)).

Definition keeps {A} (P : BLEClient -> Prop) (m : M A) (Q : BLEClient -> Prop)
  : Prop :=
  forall c, P c -> Q (after m c).

(** The preset characteristics are discovered in the order save, load,
    list, delete: without the first there is none of the others. *)
Definition presets_inv (c : BLEClient) : Prop :=
  presetSaveCharacteristic c = None ->
  presetLoadCharacteristic c = None
  /\ presetListCharacteristic c = None
  /\ presetDeleteCharacteristic c = None.

Definition has_save (c : BLEClient) : Prop :=
  presetSaveCharacteristic c <> None.

Definition preset_characteristics (c : BLEClient) :=
  (presetSaveCharacteristic c, presetLoadCharacteristic c,
   presetListCharacteristic c, presetDeleteCharacteristic c).

(** A property of the preset characteristics alone. *)
Definition on_presets (P : BLEClient -> Prop) : Prop :=
  forall c c', preset_characteristics c = preset_characteristics c' ->
               P c -> P c'.


(** Firmware without the preset characteristics: only the data
    characteristic is discovered. *)
Definition old_firmware : ConnectEnv :=
  mkConnectEnv true (Normal (Some (mkDevice 1 (Some false)))) (Normal 2%nat)
    (Normal tt)
    (fun uuid =>
       if String.eqb uuid KB1_CHARACTERISTIC_UUID then Normal 3%nat
       else Throw (mkError PlainError "No Characteristics matching UUID"))
    (Normal tt).

(** Firmware with the preset characteristics. *)
Definition new_firmware : ConnectEnv :=
  mkConnectEnv true (Normal (Some (mkDevice 2 (Some false)))) (Normal 4%nat)
    (Normal tt)
    (fun uuid =>
       if String.eqb uuid KB1_CHARACTERISTIC_UUID then Normal 5%nat
       else if String.eqb uuid SAVE then Normal 6%nat
       else if String.eqb uuid LOAD then Normal 7%nat
       else if String.eqb uuid LIST then Normal 8%nat
       else Normal 9%nat)
    (Normal tt).

Section DevicePresets.

(** [loadFromDevice()], the read-back of the settings, is a method of the
    client that the guide calls and does not show. *)
Variable loadFromDevice : M unit.

(** [saveDevicePreset(slot, name)] *)
Definition saveDevicePreset (io : Completion unit) (slot : Z) (name : JSString)
  : M unit :=
  c <~ get ;;
  match presetSaveCharacteristic c with
  | None => throw presets_unsupported
  | Some ch =>
      data <~ pure (Codec.encodePresetSave slot name) ;;
      _ <~ emit (Written ch data) ;;
      _ <~ await io ;;
      emit (ConsoleLog
              (lit ("Saved to device preset slot " ++ Number_toString slot ++ ": ")
               ++ name))
  end.

(** [loadDevicePreset(slot)] *)
Definition loadDevicePreset (io : Completion unit) (slot : Z) : M unit :=
  c <~ get ;;
  match presetLoadCharacteristic c with
  | None => throw presets_unsupported
  | Some ch =>
      data <~ pure (Codec.encodePresetLoad slot) ;;
      _ <~ emit (Written ch data) ;;
      _ <~ await io ;;
      _ <~ emit (ConsoleLog
                   (lit ("Loaded from device preset slot " ++ Number_toString slot))) ;;
      loadFromDevice
  end.

(** [listDevicePresets()] *)
Definition listDevicePresets (io : Completion DataView)
  : M (list Codec.DevicePresetMetadata) :=
  c <~ get ;;
  match presetListCharacteristic c with
  | None => throw presets_unsupported
  | Some ch =>
      _ <~ emit (ReadFrom ch) ;;
      dataView <~ await io ;;
      pure (Codec.decodePresetList dataView)
  end.

(** [deleteDevicePreset(slot)] *)
Definition deleteDevicePreset (io : Completion unit) (slot : Z) : M unit :=
  c <~ get ;;
  match presetDeleteCharacteristic c with
  | None => throw presets_unsupported
  | Some ch =>
      data <~ pure (Codec.encodePresetDelete slot) ;;
      _ <~ emit (Written ch data) ;;
      _ <~ await io ;;
      emit (ConsoleLog
              (lit ("Deleted device preset slot " ++ Number_toString slot)))
  end.

(** The calls a client receives, with the answers of the platform. *)
Inductive Call :=
| CallSetStatusChangeCallback (cb : Callback)
| CallSetDataReceivedCallback (cb : Callback)
| CallConnect (env : ConnectEnv)
| CallDisconnect
| EventDisconnected
| CallSendData (io : Completion unit) (data : list Z)
| CallReadData (io : Completion DataView)
| CallSavePreset (io : Completion unit) (slot : Z) (name : JSString)
| CallLoadPreset (io : Completion unit) (slot : Z)
| CallListPresets (io : Completion DataView)
| CallDeletePreset (io : Completion unit) (slot : Z).

Definition call (k : Call) (c : BLEClient) : BLEClient :=
  match k with
  | CallSetStatusChangeCallback cb => after (setStatusChangeCallback cb) c
  | CallSetDataReceivedCallback cb => after (setDataReceivedCallback cb) c
  | CallConnect env => after (connect env) c
  | CallDisconnect => after disconnect c
  | EventDisconnected => after onDisconnected c
  | CallSendData io data => after (sendData io data) c
  | CallReadData io => after (readData io) c
  | CallSavePreset io slot name => after (saveDevicePreset io slot name) c
  | CallLoadPreset io slot => after (loadDevicePreset io slot) c
  | CallListPresets io => after (listDevicePresets io) c
  | CallDeletePreset io slot => after (deleteDevicePreset io slot) c
  end.

(** The states of a client: a new client and what calls make of it. *)
Inductive reachable : BLEClient -> Prop :=
| reachable_new : reachable client0
| reachable_call k c : reachable c -> reachable (call k c).

End DevicePresets.

End BLE.

(** ** Sessions of the transport client *)

Module BLESession.
Import JS BLE.

Definition is_normal {A} (r : Completion A) : bool :=
  match r with Normal _ => true | Throw _ => false end.

(** The answers of the platform on which [connect()] depends: Bluetooth
    is there, a device with a GATT server is chosen, and the link, the
    service and the data characteristic are obtained. *)
Definition can_connect (env : ConnectEnv) : bool :=
  bluetooth_available env
  && match requestDevice env with
     | Normal (Some (mkDevice _ (Some _))) => true
     | _ => false
     end
  && is_normal (gatt_connect env)
  && is_normal (getPrimaryService env)
  && is_normal (getCharacteristic env KB1_CHARACTERISTIC_UUID).

(** The status notifications among the effects. *)
Definition notified (es : list Effect) : list BLEConnectionStatus :=
  omap (fun e => match e with StatusChanged _ s => Some s | _ => None end) es.

(** A sequence of calls. *)
Fixpoint calls (loadFromDevice : M unit) (ks : list Call) (c : BLEClient)
  : BLEClient :=
  match ks with
  | [] => c
  | k :: ks => calls loadFromDevice ks (call loadFromDevice k c)
  end.

End BLESession.

(** ** Sessions of the control channel *)

Module MidiBleSession.
Import JS MidiBle.

Definition is_connect (c : Call) : bool :=
  match c with CallConnect _ => true | _ => false end.

(** [Number.isSafeInteger(n)] for an integer [n]: it is a Number, and no
    other integer is the same Number. *)
Definition Number_isSafeInteger (n : Z) : bool :=
  Z.abs n <=? 9007199254740991.

(** The clock readings of the sends of a session, in order. *)
Fixpoint send_times (cs : list Call) : list Z :=
  match cs with
  | [] => []
  | CallSend now _ _ _ :: cs => now :: send_times cs
  | _ :: cs => send_times cs
  end.

(** The transport writes of a session, each with the clock reading of the
    send that issued it. *)
Fixpoint timed_writes (cs : list Call) (st : MidiBleState)
  : list (Z * (GATTCharacteristic * list Z)) :=
  match cs with
  | [] => []
  | c :: cs =>
      let o := call c st in
      match c with
      | CallSend now _ _ _ => map (pair now) (writes o)
      | _ => []
      end ++ timed_writes cs (next o)
  end.

(** A clock that never runs backwards: readings in nondecreasing order,
    none before [from]. *)
Fixpoint nondecreasing (from : Z) (ts : list Z) : Prop :=
  match ts with
  | [] => True
  | t :: ts => from <= t /\ nondecreasing t ts
  end.

(** Readings at least [d] apart, the first at least [d] after [from]. *)
Fixpoint spaced (d from : Z) (ts : list Z) : Prop :=
  match ts with
  | [] => True
  | t :: ts => d <= t - from /\ spaced d t ts
  end.

(** Every character of a string satisfies [P]. *)
Fixpoint all_chars (P : ascii -> bool) (s : string) : bool :=
  match s with
  | EmptyString => true
  | String a s => P a && all_chars P s
  end.

Definition is_decimal_char (a : ascii) : bool :=
  let n := N_of_ascii a in
  ((48 <=? n) && (n <=? 57))%N || (n =? 45)%N.

End MidiBleSession.

(** ** Traces of the keep-alive service *)

Module KeepAliveTrace.
Import KeepAlive.

(** The effects of a sequence of steps. *)
Fixpoint effects (sts : list Step) (s : KeepAliveService) : list Effect :=
  match sts with
  | [] => []
  | st :: sts =>
      let '(s', es, _) := step st s in es ++ effects sts s'
  end.

(** The interval timers set and not cleared, from those in [timers]. *)
Fixpoint armed (es : list Effect) (timers : list TimerId) : list TimerId :=
  match es with
  | [] => timers
  | TimerSet id _ :: es => armed es (timers ++ [id])
  | TimerCleared id :: es =>
      armed es (List.filter (fun t => negb (Pos.eqb t id)) timers)
  | _ :: es => armed es timers
  end.

Definition timer_of (s : KeepAliveService) : list TimerId :=
  match pingInterval s with Some id => [id] | None => [] end.

(** The listeners of the tracker are attached exactly while the service
    runs. *)
Definition tracking_inv (s : KeepAliveService) : Prop :=
  ActivityTracker.isActive (activityTracker s) = isRunning s.

End KeepAliveTrace.

(** ** [throttle] ([utils/ActivityTracker.ts]) *)

Module Throttle.

Definition TimerId := positive.

Section Throttled.

(** The arguments of the throttled function. *)
Variable Args : Type.

(** The variables of the closure, and the timeouts of the closure that the
    platform holds, each with the time it is due and the arguments its
    callback passes on. *)
Record World := mkWorld {
  lastCall : Z;
  timeoutId : option TimerId;
  pending : list (TimerId * (Z * Args))
}.

Definition world0 : World := mkWorld 0 None [].

(** [clearTimeout(id)] *)
Definition clearTimeout (id : TimerId) (p : list (TimerId * (Z * Args)))
  : list (TimerId * (Z * Args)) :=
  List.filter (fun t => negb (Pos.eqb (fst t) id)) p.

(** A call of the throttled function with [args] when [Date.now()] is
    [now]; [id] is the handle [setTimeout] returns if it is called. The
    result has the arguments [func] was called with, if it was. *)
Definition invoke (delay now : Z) (id : TimerId) (args : Args) (w : World)
  : World * option Args :=
  let timeSinceLastCall := now - lastCall w in
  if timeSinceLastCall >=? delay then
    (mkWorld now (timeoutId w) (pending w), Some args)
  else
    let p := match timeoutId w with
             | Some old => clearTimeout old (pending w)
             | None => pending w
             end in
    (mkWorld (lastCall w) (Some id)
       (p ++ [(id, (now + (delay - timeSinceLastCall), args))]),
     None).

(** The timeout [id] fires when [Date.now()] is [now]. *)
Definition fire (now : Z) (id : TimerId) (w : World) : World * option Args :=
  match List.find (fun t => Pos.eqb (fst t) id) (pending w) with
  | Some (_, (_, args)) =>
      (mkWorld now (timeoutId w) (clearTimeout id (pending w)), Some args)
  | None => (w, None)
  end.

Inductive Event :=
| Invoke (now : Z) (id : TimerId) (args : Args)
| Fire (now : Z) (id : TimerId).

Definition event (delay : Z) (e : Event) (w : World) : World * option Args :=
  match e with
  | Invoke now id args => invoke delay now id args w
  | Fire now id => fire now id w
  end.

Fixpoint events (delay : Z) (es : list Event) (w : World) : World :=
  match es with
  | [] => w
  | e :: es => events delay es (fst (event delay e w))
  end.

(** The timeouts the platform holds are at most the one the closure
    remembers. *)
Definition pending_inv (w : World) : Prop :=
  match pending w with
  | [] => True
  | [(id, _)] => timeoutId w = Some id
  | _ => False
  end.

End Throttled.

Arguments lastCall {Args}.
Arguments timeoutId {Args}.
Arguments pending {Args}.
Arguments invoke {Args}.
Arguments fire {Args}.
Arguments event {Args}.
Arguments events {Args}.
Arguments pending_inv {Args}.
Arguments Invoke {Args}.
Arguments Fire {Args}.

End Throttle.

(** ** The device state composable ([useDeviceState], [PresetManager]) *)

Module DeviceState.
Import JS.

(** The client of the composable and its two refs. *)
Record State := mkState {
  bleClient : BLE.BLEClient;
  devicePresets : list Codec.DevicePresetMetadata;
  hasDevicePresetSupport : bool
}.

Definition state0 : State := mkState BLE.client0 [] false.

Definition M (A : Type) : Type :=
  State -> Completion A * State * list BLE.Effect.

(** A call of a method of [bleClient]. *)
Definition on_client {A} (m : BLE.M A) : M A :=
  fun s =>
    let '(r, c, es) := m (bleClient s) in
    (r, mkState c (devicePresets s) (hasDevicePresetSupport s), es).

(** [await m; k] *)
Definition and_then {A B} (m : M A) (k : M B) : M B :=
  fun s =>
    match m s with
    | (Normal _, s', es) => let '(r, s'', es') := k s' in (r, s'', es ++ es')
    | (Throw e, s', es) => (Throw e, s', es)
    end.

(** [refreshDevicePresets()] *)
Definition refreshDevicePresets (io : Completion DataView) : M unit :=
  fun s =>
    if negb (BLE.hasDevicePresetSupport (bleClient s)) then
      (Normal tt, mkState (bleClient s) [] false, [])
    else
      let s1 := mkState (bleClient s) (devicePresets s) true in
      match on_client (BLE.listDevicePresets io) s1 with
      | (Normal l, s2, es) =>
          (Normal tt, mkState (bleClient s2) l (hasDevicePresetSupport s2), es)
      | (Throw _, s2, es) =>
          (Normal tt, s2,
           es ++ [BLE.ConsoleError (lit "Failed to refresh device presets:")])
      end.

(** [saveDevicePreset(slot, name)] *)
Definition saveDevicePreset (io : Completion unit) (io' : Completion DataView)
    (slot : Z) (name : JSString) : M unit :=
  and_then (on_client (BLE.saveDevicePreset io slot name))
           (refreshDevicePresets io').

(** [loadDevicePreset(slot)] *)
Definition loadDevicePreset (loadFromDevice : BLE.M unit)
    (io : Completion unit) (slot : Z) : M unit :=
  on_client (BLE.loadDevicePreset loadFromDevice io slot).

(** [deleteDevicePreset(slot)] *)
Definition deleteDevicePreset (io : Completion unit) (io' : Completion DataView)
    (slot : Z) : M unit :=
  and_then (on_client (BLE.deleteDevicePreset io slot))
           (refreshDevicePresets io').

(** The lines added to the success handler of [connect()]. *)
Definition onConnected (io : Completion DataView) : M unit :=
  fun s =>
    let s1 := mkState (bleClient s) (devicePresets s)
                (BLE.hasDevicePresetSupport (bleClient s)) in
    if hasDevicePresetSupport s1 then refreshDevicePresets io s1
    else (Normal tt, s1, []).

(** [getDevicePreset(slot)] of [PresetManager]: an element of the array is
    an object, so [||] takes the default only where there is none. *)
Definition getDevicePreset (s : State) (slot : Z) : Codec.DevicePresetMetadata :=
  match (if slot <? 0 then None
         else nth_error (devicePresets s) (Z.to_nat slot)) with
  | Some p => p
  | None => Codec.mkMetadata slot (lit "[Empty]") 0 false
  end.

(** The calls the composable receives, with the answers of the platform;
    the client is also called by the rest of the application. *)
Inductive Call :=
| CallRefresh (io : Completion DataView)
| CallSave (io : Completion unit) (io' : Completion DataView)
    (slot : Z) (name : JSString)
| CallLoad (io : Completion unit) (slot : Z)
| CallDelete (io : Completion unit) (io' : Completion DataView) (slot : Z)
| CallOnConnected (io : Completion DataView)
| CallClient (k : BLE.Call).

Section Calls.

Variable loadFromDevice : BLE.M unit.

Definition call (k : Call) (s : State) : State :=
  match k with
  | CallRefresh io => snd (fst (refreshDevicePresets io s))
  | CallSave io io' slot name => snd (fst (saveDevicePreset io io' slot name s))
  | CallLoad io slot => snd (fst (loadDevicePreset loadFromDevice io slot s))
  | CallDelete io io' slot => snd (fst (deleteDevicePreset io io' slot s))
  | CallOnConnected io => snd (fst (onConnected io s))
  | CallClient k =>
      mkState (BLE.call loadFromDevice k (bleClient s)) (devicePresets s)
        (hasDevicePresetSupport s)
  end.

Inductive reachable : State -> Prop :=
| reachable_new : reachable state0
| reachable_call k s : reachable s -> reachable (call k s).

End Calls.

(** The cached list is empty or has the eight slots in order. *)
Definition cache_inv (s : State) : Prop :=
  devicePresets s = []
  \/ map Codec.slot (devicePresets s) = [0; 1; 2; 3; 4; 5; 6; 7].


Definition is_write (e : BLE.Effect) : bool :=
  match e with BLE.Written _ _ => true | _ => false end.

End DeviceState.


(** * Properties *)

(** ** The platform model *)

Module JSFacts.
Import JS.

Ltac zlia := Z.div_mod_to_equations; lia.

(** Resolve the boolean comparisons of the goal by linear arithmetic. *)
Ltac zbool :=
  repeat match goal with
  | |- context [?a <=? ?b] =>
      first [ replace (a <=? b) with true by (symmetry; apply Z.leb_le; zlia)
            | replace (a <=? b) with false by (symmetry; apply Z.leb_gt; zlia) ]
  | |- context [?a <? ?b] =>
      first [ replace (a <? b) with true by (symmetry; apply Z.ltb_lt; zlia)
            | replace (a <? b) with false by (symmetry; apply Z.ltb_ge; zlia) ]
  | |- context [?a =? ?b] =>
      first [ replace (a =? b) with true by (symmetry; apply Z.eqb_eq; zlia)
            | replace (a =? b) with false by (symmetry; apply Z.eqb_neq; zlia) ]
  end; cbn [andb orb negb].

(** *** Bit operations as arithmetic *)

Lemma land_shiftl_small x y n :
  0 <= n -> 0 <= y < 2 ^ n -> Z.land (Z.shiftl x n) y = 0.
Proof.
  intros Hn Hy. apply Z.bits_inj'. intros k Hk.
  rewrite Z.land_spec, Z.bits_0.
  destruct (Z.lt_ge_cases k n) as [Hlt|Hge].
  - rewrite Z.shiftl_spec_low by lia. reflexivity.
  - destruct (Z.eq_dec y 0) as [->|Hy0].
    + rewrite Z.bits_0. apply andb_false_r.
    + rewrite (Z.bits_above_log2 y k); [apply andb_false_r|lia|].
      assert (Z.log2 y < n) by (apply Z.log2_lt_pow2; lia).
      assert (Z.log2 y < k) by lia. lia.
Qed.

Lemma lor_shiftl_add x y n :
  0 <= n -> 0 <= y < 2 ^ n -> Z.lor (Z.shiftl x n) y = x * 2 ^ n + y.
Proof.
  intros Hn Hy. rewrite <- Z.add_nocarry_lor by (apply land_shiftl_small; lia).
  rewrite Z.shiftl_mul_pow2 by lia. reflexivity.
Qed.

Lemma land_0x3F x : Z.land x 0x3F = x mod 64.
Proof. change 0x3F with (Z.ones 6). rewrite Z.land_ones by lia. reflexivity. Qed.

Lemma land_0x1F x : Z.land x 0x1F = x mod 32.
Proof. change 0x1F with (Z.ones 5). rewrite Z.land_ones by lia. reflexivity. Qed.

Lemma land_0xF x : Z.land x 0xF = x mod 16.
Proof. change 0xF with (Z.ones 4). rewrite Z.land_ones by lia. reflexivity. Qed.

Lemma land_0x7 x : Z.land x 0x7 = x mod 8.
Proof. change 0x7 with (Z.ones 3). rewrite Z.land_ones by lia. reflexivity. Qed.

Lemma lor_0x80 y : 0 <= y < 64 -> Z.lor 0x80 y = 128 + y.
Proof.
  intros Hy. change (Z.lor 0x80 y) with (Z.lor (Z.shiftl 2 6) y).
  rewrite lor_shiftl_add; change (2 ^ 6) with 64; lia.
Qed.

Lemma continuation_byte cp k :
  0 <= k ->
  Z.lor 0x80 (Z.land (Z.shiftr cp k) 0x3F) = 128 + (cp / 2 ^ k) mod 64.
Proof.
  intros Hk. rewrite land_0x3F, Z.shiftr_div_pow2 by lia.
  apply lor_0x80. zlia.
Qed.

(** *** The encoder, case by case *)

Lemma encode_1 cp : cp <= 0x7F -> utf8_encode_code_point cp = [cp].
Proof. intros H. unfold utf8_encode_code_point. zbool. reflexivity. Qed.

Lemma encode_2 cp :
  0x80 <= cp <= 0x7FF ->
  utf8_encode_code_point cp = [cp / 64 + 0xC0; 128 + cp mod 64].
Proof.
  intros H. unfold utf8_encode_code_point. zbool.
  cbn [utf8_continuation Z.of_nat Z.mul Pos.mul Pos.of_succ_nat].
  rewrite continuation_byte, Z.shiftr_div_pow2 by lia.
  change (2 ^ 6) with 64. change (2 ^ 0) with 1. rewrite Z.div_1_r. reflexivity.
Qed.

Lemma encode_3 cp :
  0x800 <= cp <= 0xFFFF ->
  utf8_encode_code_point cp =
    [cp / 4096 + 0xE0; 128 + (cp / 64) mod 64; 128 + cp mod 64].
Proof.
  intros H. unfold utf8_encode_code_point. zbool.
  cbn [utf8_continuation Z.of_nat Z.mul Pos.mul Pos.of_succ_nat Pos.succ].
  rewrite !continuation_byte, Z.shiftr_div_pow2 by lia.
  change (2 ^ 12) with 4096. change (2 ^ 6) with 64. change (2 ^ 0) with 1.
  rewrite Z.div_1_r. reflexivity.
Qed.

Lemma encode_4 cp :
  0x10000 <= cp ->
  utf8_encode_code_point cp =
    [cp / 262144 + 0xF0; 128 + (cp / 4096) mod 64; 128 + (cp / 64) mod 64;
     128 + cp mod 64].
Proof.
  intros H. unfold utf8_encode_code_point. zbool.
  cbn [utf8_continuation Z.of_nat Z.mul Pos.mul Pos.of_succ_nat Pos.succ].
  rewrite !continuation_byte, Z.shiftr_div_pow2 by lia.
  change (2 ^ 18) with 262144. change (2 ^ 12) with 4096.
  change (2 ^ 6) with 64. change (2 ^ 0) with 1.
  rewrite Z.div_1_r. reflexivity.
Qed.

(** *** The decoder inverts the encoder *)

Lemma decode_encode_code_point cp rest :
  is_scalar cp ->
  utf8_run decoder0 (utf8_encode_code_point cp ++ rest)
  = cp :: utf8_run decoder0 rest.
Proof.
  intros [Hr Hs].
  destruct (Z_le_gt_dec cp 0x7F) as [H1|H1];
    [|destruct (Z_le_gt_dec cp 0x7FF) as [H2|H2];
      [|destruct (Z_le_gt_dec cp 0xFFFF) as [H3|H3]]].
  - rewrite encode_1 by lia. cbn [app utf8_run].
    unfold utf8_step, utf8_lead. cbn [bytes_needed decoder0]. zbool.
    reflexivity.
  - rewrite encode_2 by lia. cbn [app utf8_run].
    unfold utf8_step at 1, utf8_lead. cbn [bytes_needed decoder0]. zbool.
    cbn [app]. unfold utf8_step.
    cbn [bytes_needed bytes_seen code_point lower_boundary upper_boundary].
    zbool. rewrite land_0x1F, land_0x3F.
    rewrite lor_shiftl_add by (change (2 ^ 6) with 64; zlia).
    cbn [app]. f_equal. change (2 ^ 6) with 64. zlia.
  - rewrite encode_3 by lia. cbn [app utf8_run].
    unfold utf8_step at 1, utf8_lead. cbn [bytes_needed decoder0].
    destruct (Z.eq_dec (cp / 4096) 0) as [E0|E0];
      destruct (Z.eq_dec (cp / 4096) 13) as [ED|ED]; try lia;
      zbool; cbn [app]; unfold utf8_step;
      cbn [bytes_needed bytes_seen code_point lower_boundary upper_boundary];
      zbool;
      cbn [bytes_needed bytes_seen code_point lower_boundary upper_boundary];
      zbool; rewrite land_0xF, !land_0x3F;
      rewrite !lor_shiftl_add by (change (2 ^ 6) with 64; zlia);
      cbn [app]; f_equal; change (2 ^ 6) with 64; zlia.
  - rewrite encode_4 by lia. cbn [app utf8_run].
    unfold utf8_step at 1, utf8_lead. cbn [bytes_needed decoder0].
    destruct (Z.eq_dec (cp / 262144) 0) as [E0|E0];
      destruct (Z.eq_dec (cp / 262144) 4) as [E4|E4]; try lia;
      zbool; cbn [app]; unfold utf8_step;
      cbn [bytes_needed bytes_seen code_point lower_boundary upper_boundary];
      zbool;
      cbn [bytes_needed bytes_seen code_point lower_boundary upper_boundary];
      zbool;
      cbn [bytes_needed bytes_seen code_point lower_boundary upper_boundary];
      zbool; rewrite land_0x7, !land_0x3F;
      rewrite !lor_shiftl_add by (change (2 ^ 6) with 64; zlia);
      cbn [app]; f_equal; change (2 ^ 6) with 64; zlia.
Qed.

Lemma utf8_decode_encode cps :
  Forall is_scalar cps -> utf8_decode (utf8_encode cps) = cps.
Proof.
  unfold utf8_decode, utf8_encode.
  induction 1 as [|cp cps Hcp _ IH]; [reflexivity|].
  cbn [flat_map]. rewrite decode_encode_code_point by assumption.
  f_equal. exact IH.
Qed.

(** *** UTF-16 *)

(** Induction on a well-formed string, one code point at a time. *)
Lemma well_formed_ind (P : JSString -> Prop) :
  P [] ->
  (forall c s, is_lead c = false -> is_trail c = false -> 0 <= c <= 0xFFFF ->
               well_formed s = true -> P s -> P (c :: s)) ->
  (forall c d s, is_lead c = true -> is_trail d = true ->
                 well_formed s = true -> P s -> P (c :: d :: s)) ->
  forall s, well_formed s = true -> P s.
Proof.
  intros Hnil Hbmp Hpair s.
  assert (Hlen : exists n, (length s <= n)%nat) by (exists (length s); lia).
  destruct Hlen as [n Hn]. revert s Hn.
  induction n as [|n IH]; intros [|c s] Hn Hwf; cbn [length] in Hn;
    try exact Hnil; try lia.
  cbn [well_formed] in Hwf. destruct (is_lead c) eqn:Hc.
  - destruct s as [|d s]; [discriminate|].
    apply andb_true_iff in Hwf as [Hd Hwf].
    apply Hpair; try assumption. apply IH; [cbn [length] in Hn; lia|assumption].
  - rewrite !andb_true_iff, negb_true_iff in Hwf.
    destruct Hwf as [[[H0 H1] Ht] Hwf].
    apply Hbmp; try assumption; [lia|]. apply IH; [lia|assumption].
Qed.

Lemma to_scalars_bmp c s :
  is_lead c = false -> is_trail c = false -> to_scalars (c :: s) = c :: to_scalars s.
Proof. intros Hl Ht. cbn [to_scalars]. rewrite Hl, Ht. reflexivity. Qed.

Lemma to_scalars_pair c d s :
  is_lead c = true -> is_trail d = true ->
  to_scalars (c :: d :: s)
  = (0x10000 + (c - 0xD800) * 0x400 + (d - 0xDC00)) :: to_scalars s.
Proof. intros Hl Ht. cbn [to_scalars]. rewrite Hl, Ht. reflexivity. Qed.

Lemma is_lead_true c : is_lead c = true <-> 0xD800 <= c <= 0xDBFF.
Proof. unfold is_lead. rewrite andb_true_iff, !Z.leb_le. reflexivity. Qed.

Lemma is_trail_true c : is_trail c = true <-> 0xDC00 <= c <= 0xDFFF.
Proof. unfold is_trail. rewrite andb_true_iff, !Z.leb_le. reflexivity. Qed.

Lemma is_lead_false c : is_lead c = false <-> ~ (0xD800 <= c <= 0xDBFF).
Proof. rewrite <- is_lead_true. destruct (is_lead c); intuition congruence. Qed.

Lemma is_trail_false c : is_trail c = false <-> ~ (0xDC00 <= c <= 0xDFFF).
Proof. rewrite <- is_trail_true. destruct (is_trail c); intuition congruence. Qed.

(** The scalar values of a well-formed string are Unicode scalar values... *)
Lemma to_scalars_is_scalar s :
  well_formed s = true -> Forall is_scalar (to_scalars s).
Proof.
  revert s. apply (well_formed_ind (fun s => Forall is_scalar (to_scalars s))).
  - constructor.
  - intros c s Hl Ht Hc _ IH. rewrite to_scalars_bmp by assumption.
    apply is_lead_false in Hl. apply is_trail_false in Ht.
    constructor; [unfold is_scalar; lia|exact IH].
  - intros c d s Hl Ht _ IH. rewrite to_scalars_pair by assumption.
    apply is_lead_true in Hl. apply is_trail_true in Ht.
    constructor; [unfold is_scalar; lia|exact IH].
Qed.

(** ... and encode back to the string. *)
Lemma CodePointsToString_to_scalars s :
  well_formed s = true -> CodePointsToString (to_scalars s) = s.
Proof.
  revert s. unfold CodePointsToString.
  apply (well_formed_ind (fun s => flat_map UTF16EncodeCodePoint (to_scalars s) = s)).
  - reflexivity.
  - intros c s Hl Ht Hc _ IH. rewrite to_scalars_bmp by assumption.
    cbn [flat_map]. rewrite IH. unfold UTF16EncodeCodePoint. zbool. reflexivity.
  - intros c d s Hl Ht _ IH. rewrite to_scalars_pair by assumption.
    apply is_lead_true in Hl. apply is_trail_true in Ht.
    cbn [flat_map]. rewrite IH. unfold UTF16EncodeCodePoint. zbool.
    cbn [app]. f_equal; [zlia|f_equal; zlia].
Qed.

(** The first scalar value is U+FEFF only when the first code unit is. *)
Lemma strip_BOM_to_scalars s :
  well_formed s = true ->
  match s with c :: _ => c =? 0xFEFF | [] => false end = false ->
  strip_BOM (to_scalars s) = to_scalars s.
Proof.
  intros Hwf. revert s Hwf.
  apply (well_formed_ind (fun s =>
    match s with c :: _ => c =? 0xFEFF | [] => false end = false ->
    strip_BOM (to_scalars s) = to_scalars s)).
  - reflexivity.
  - intros c s Hl Ht Hc _ _ Hb. rewrite to_scalars_bmp by assumption.
    apply Z.eqb_neq in Hb. unfold strip_BOM.
    destruct c as [|p|p]; try reflexivity.
    repeat (destruct p as [p|p|]; try reflexivity). lia.
  - intros c d s Hl Ht _ _ _. rewrite to_scalars_pair by assumption.
    apply is_lead_true in Hl. apply is_trail_true in Ht.
    set (cp := 0x10000 + _ + _). assert (Hcp : 0x10000 <= cp) by (subst cp; lia).
    clearbody cp. unfold strip_BOM.
    destruct cp as [|p|p]; try reflexivity.
    repeat (destruct p as [p|p|]; try reflexivity). lia.
Qed.

(** [TextDecoder] inverts [TextEncoder] on well-formed text without a byte
    order mark. *)
Lemma TextDecoder_TextEncoder s :
  well_formed s = true ->
  match s with c :: _ => c =? 0xFEFF | [] => false end = false ->
  TextDecoder_decode (TextEncoder_encode s) = s.
Proof.
  intros Hwf Hb. unfold TextDecoder_decode, TextEncoder_encode.
  rewrite utf8_decode_encode by (apply to_scalars_is_scalar; assumption).
  rewrite strip_BOM_to_scalars by assumption.
  apply CodePointsToString_to_scalars. assumption.
Qed.

(** *** Bytes of encoded text *)

Lemma encode_code_point_bytes cp :
  is_scalar cp -> cp <> 0 ->
  Forall (fun b => 0 < b < 256) (utf8_encode_code_point cp).
Proof.
  intros [Hr Hs] H0.
  destruct (Z_le_gt_dec cp 0x7F) as [H1|H1];
    [|destruct (Z_le_gt_dec cp 0x7FF) as [H2|H2];
      [|destruct (Z_le_gt_dec cp 0xFFFF) as [H3|H3]]].
  - rewrite encode_1 by lia. repeat constructor; lia.
  - rewrite encode_2 by lia. repeat constructor; zlia.
  - rewrite encode_3 by lia. repeat constructor; zlia.
  - rewrite encode_4 by lia. repeat constructor; zlia.
Qed.

Lemma to_scalars_nonzero s :
  well_formed s = true -> forallb (fun c => negb (c =? 0)) s = true ->
  Forall (fun cp => cp <> 0) (to_scalars s).
Proof.
  intros Hwf. revert s Hwf.
  apply (well_formed_ind (fun s =>
    forallb (fun c => negb (c =? 0)) s = true ->
    Forall (fun cp => cp <> 0) (to_scalars s))).
  - constructor.
  - intros c s Hl Ht Hc _ IH Hnz. rewrite to_scalars_bmp by assumption.
    cbn [forallb] in Hnz. apply andb_true_iff in Hnz as [Hc0 Hnz].
    apply negb_true_iff, Z.eqb_neq in Hc0. constructor; auto.
  - intros c d s Hl Ht _ IH Hnz. rewrite to_scalars_pair by assumption.
    apply is_lead_true in Hl. apply is_trail_true in Ht.
    cbn [forallb] in Hnz. rewrite !andb_true_iff in Hnz.
    constructor; [lia|]. apply IH. tauto.
Qed.

Lemma TextEncoder_bytes s :
  well_formed s = true -> forallb (fun c => negb (c =? 0)) s = true ->
  Forall (fun b => 0 < b < 256) (TextEncoder_encode s).
Proof.
  intros Hwf Hnz. unfold TextEncoder_encode, utf8_encode.
  pose proof (to_scalars_is_scalar s Hwf) as Hs.
  pose proof (to_scalars_nonzero s Hwf Hnz) as H0.
  induction Hs as [|cp cps Hcp _ IH]; [constructor|].
  inversion H0; subst. cbn [flat_map]. apply Forall_app. split.
  - apply encode_code_point_bytes; assumption.
  - apply IH. assumption.
Qed.

(** *** [indexOf] *)

Lemma indexOf_absent l x :
  Forall (fun b => b <> x) l -> indexOf l x = -1.
Proof.
  induction 1 as [|b l Hb _ IH]; [reflexivity|].
  cbn [indexOf]. rewrite IH. apply Z.eqb_neq in Hb. rewrite Hb. reflexivity.
Qed.

Lemma indexOf_first l x r :
  Forall (fun b => b <> x) l -> indexOf (l ++ x :: r) x = Z.of_nat (length l).
Proof.
  induction 1 as [|b l Hb _ IH]; cbn [app indexOf length].
  - rewrite Z.eqb_refl. reflexivity.
  - rewrite IH. apply Z.eqb_neq in Hb. rewrite Hb. zbool. lia.
Qed.

(** *** The length of encoded text *)

Lemma length_encode_code_point cp :
  length (utf8_encode_code_point cp) =
    if cp <=? 0x7F then 1%nat
    else if cp <=? 0x7FF then 2%nat
    else if cp <=? 0xFFFF then 3%nat else 4%nat.
Proof.
  unfold utf8_encode_code_point.
  destruct (cp <=? 0x7F); [reflexivity|].
  destruct (cp <=? 0x7FF); [reflexivity|].
  destruct (cp <=? 0xFFFF); reflexivity.
Qed.

(** Induction along [to_scalars]: a surrogate pair, or one code unit on its
    own. *)
Lemma to_scalars_ind (P : JSString -> Prop) :
  P [] ->
  (forall c d s, is_lead c = true -> is_trail d = true -> P s -> P (c :: d :: s)) ->
  (forall c s,
     to_scalars (c :: s)
     = (if is_lead c || is_trail c then 0xFFFD else c) :: to_scalars s ->
     P s -> P (c :: s)) ->
  forall s, P s.
Proof.
  intros Hnil Hpair Hone s.
  assert (Hlen : exists n, (length s <= n)%nat) by (exists (length s); lia).
  destruct Hlen as [n Hn]. revert s Hn.
  induction n as [|n IH]; intros [|c s] Hn; cbn [length] in Hn;
    try exact Hnil; try lia.
  destruct (is_lead c) eqn:Hc.
  - destruct s as [|d s].
    + apply Hone; [|exact Hnil]. cbn. rewrite Hc. reflexivity.
    + destruct (is_trail d) eqn:Hd.
      * apply Hpair; try assumption. apply IH. cbn [length] in Hn. lia.
      * apply Hone; [|apply IH; lia]. cbn [to_scalars]. rewrite Hc, Hd.
        reflexivity.
  - apply Hone; [|apply IH; lia]. cbn [to_scalars]. rewrite Hc. cbn [orb].
    destruct (is_trail c); reflexivity.
Qed.

(** Encoded text has at least as many bytes as the string has code units,
    and as many only when every code unit is ASCII. *)
Lemma length_TextEncoder s :
  (length s <= length (TextEncoder_encode s))%nat
  /\ ((length (TextEncoder_encode s) <= length s)%nat -> Forall is_ascii s).
Proof.
  pattern s. apply to_scalars_ind; clear s;
    [| intros c d s Hc Hd [IH1 IH2] | intros c s E [IH1 IH2]].
  - split; [reflexivity|constructor].
  - unfold TextEncoder_encode, utf8_encode in *.
    rewrite to_scalars_pair by assumption. cbn [flat_map length].
    apply is_lead_true in Hc. apply is_trail_true in Hd.
    rewrite length_app, length_encode_code_point. zbool. lia.
  - unfold TextEncoder_encode, utf8_encode in *. rewrite E.
    cbn [flat_map length]. rewrite length_app, length_encode_code_point.
    destruct (is_lead c || is_trail c) eqn:Hs.
    + cbn. lia.
    + destruct (Z.leb_spec c 0x7F) as [Ha|Ha].
      * split; [lia|]. intros H. constructor; [exact Ha|apply IH2; lia].
      * destruct (c <=? 0x7FF); [|destruct (c <=? 0xFFFF)]; lia.
Qed.

Lemma to_scalars_ascii_app s t :
  Forall is_ascii s -> to_scalars (s ++ t) = s ++ to_scalars t.
Proof.
  induction 1 as [|c s Hc _ IH]; [reflexivity|].
  unfold is_ascii in Hc. cbn [app to_scalars].
  replace (is_lead c) with false by (symmetry; apply is_lead_false; lia).
  replace (is_trail c) with false by (symmetry; apply is_trail_false; lia).
  rewrite IH. reflexivity.
Qed.

Lemma utf8_encode_ascii s : Forall is_ascii s -> utf8_encode s = s.
Proof.
  unfold utf8_encode. induction 1 as [|c s Hc _ IH]; [reflexivity|].
  cbn [flat_map]. rewrite IH, encode_1 by exact Hc. reflexivity.
Qed.

Lemma TextEncoder_ascii_app s t :
  Forall is_ascii s -> TextEncoder_encode (s ++ t) = s ++ TextEncoder_encode t.
Proof.
  intros H. unfold TextEncoder_encode, utf8_encode.
  rewrite to_scalars_ascii_app, flat_map_app by assumption.
  f_equal. apply utf8_encode_ascii, H.
Qed.

End JSFacts.

(** ** The preset codec *)

Module CodecSpec.
Import JS JSFacts Codec.

Lemma valid_name_spec nm :
  valid_name nm = true ->
  well_formed nm = true
  /\ forallb (fun c => negb (c =? 0)) nm = true
  /\ match nm with c :: _ => c =? 0xFEFF | [] => false end = false
  /\ (length (TextEncoder_encode nm) <= 32)%nat.
Proof.
  unfold valid_name. rewrite !andb_true_iff, negb_true_iff, Nat.leb_le. tauto.
Qed.

Lemma length_name_field nm :
  (length (TextEncoder_encode nm) <= 32)%nat -> length (name_field nm) = 32%nat.
Proof.
  intros H. unfold name_field. rewrite length_app, length_replicate. lia.
Qed.

(** Reading a name field back: the bytes before the first zero, or all 32. *)
Lemma name_field_read nm :
  valid_name nm = true ->
  let nameBytes := name_field nm in
  let nullIndex := indexOf nameBytes 0 in
  TextDecoder_decode
    (if nullIndex >=? 0 then Uint8Array_slice0 nameBytes nullIndex else nameBytes)
  = nm.
Proof.
  intros Hv. apply valid_name_spec in Hv as (Hwf & Hnz & Hbom & Hlen).
  pose proof (TextEncoder_bytes nm Hwf Hnz) as Hb.
  assert (Hb0 : Forall (fun b => b <> 0) (TextEncoder_encode nm))
    by (eapply Forall_impl; [exact Hb|]; cbn; intros; lia).
  cbv zeta. unfold name_field.
  destruct (32 - length (TextEncoder_encode nm))%nat as [|n] eqn:Hpad.
  - cbn [replicate]. rewrite app_nil_r, indexOf_absent by assumption.
    cbn. apply TextDecoder_TextEncoder; assumption.
  - cbn [replicate]. rewrite indexOf_first by assumption.
    replace (Z.of_nat _ >=? 0) with true by (symmetry; apply Z.geb_le; lia).
    unfold Uint8Array_slice0. rewrite Nat2Z.id, take_app_length.
    apply TextDecoder_TextEncoder; assumption.
Qed.

Lemma uint32_le_read n :
  0 <= n < 2 ^ 32 ->
  n mod 256 + (n / 2 ^ 8) mod 256 * 2 ^ 8 + (n / 2 ^ 16) mod 256 * 2 ^ 16
  + (n / 2 ^ 24) mod 256 * 2 ^ 24 = n.
Proof. intros H. zlia. Qed.

Lemma length_record_bytes r :
  valid_record r = true -> length (record_bytes r) = METADATA_SIZE.
Proof.
  unfold valid_record. rewrite !andb_true_iff, Nat.eqb_eq.
  intros [[[Hn _] _] Hr]. apply valid_name_spec in Hn as (_ & _ & _ & Hlen).
  unfold record_bytes, uint32_le.
  rewrite !length_app, length_name_field by assumption. cbn [length].
  rewrite Hr. reflexivity.
Qed.

(** The byte at position [32 + j] of the record at offset [off]. *)
Lemma nth_after_name (pre nf tail : list Z) off j :
  length pre = off -> length nf = 32%nat ->
  nth (0 + (off + 32) + j) (pre ++ nf ++ tail) 0 = nth j tail 0.
Proof.
  intros Hp Hn.
  replace (0 + (off + 32) + j)%nat with (length pre + (length nf + j))%nat by lia.
  rewrite !app_nth2_plus. reflexivity.
Qed.

(** One iteration of the loop on the record of slot [k]. *)
Lemma decodePreset_record pre r post k :
  length pre = (k * METADATA_SIZE)%nat ->
  valid_record r = true ->
  decodePreset (DataView_of (pre ++ record_bytes r ++ post)) k
  = Normal (metadata_of k r).
Proof.
  intros Hpre Hv. pose proof (length_record_bytes r Hv) as Hlen.
  unfold valid_record in Hv. rewrite !andb_true_iff, Nat.eqb_eq in Hv.
  destruct Hv as [[[Hn Ht0] Ht1] Hr]. apply Z.leb_le in Ht0. apply Z.ltb_lt in Ht1.
  pose proof (valid_name_spec _ Hn) as (_ & _ & _ & Hnl).
  pose proof (length_name_field _ Hnl) as Hnf.
  unfold decodePreset, DataView_of.
  cbn [buffer byteOffset byteLength].
  unfold Uint8Array_view, getUint32_le, getUint8.
  cbn [buffer byteOffset byteLength].
  rewrite !length_app, Hlen, Hpre.
  unfold METADATA_SIZE in *.
  replace (_ <? k * 40 + 32)%nat with false by (symmetry; apply Nat.ltb_ge; lia).
  replace (_ <? k * 40 + 32 + 4)%nat with false by (symmetry; apply Nat.ltb_ge; lia).
  replace (_ <? k * 40 + 36 + 1)%nat with false by (symmetry; apply Nat.ltb_ge; lia).
  cbn [cbind].
  rewrite drop_app_length' by (symmetry; assumption).
  assert (Htake : take 32 (record_bytes r ++ post) = name_field (rec_name r)).
  { unfold record_bytes. rewrite <- !app_assoc.
    apply take_app_length'. symmetry. assumption. }
  rewrite !Htake, (name_field_read _ Hn).
  unfold record_bytes. rewrite <- !app_assoc.
  replace (0 + (k * 40 + 36))%nat with (0 + (k * 40 + 32) + 4)%nat by lia.
  rewrite !(nth_after_name pre _ _ (k * 40)) by assumption.
  cbn [uint32_le app nth]. rewrite uint32_le_read by lia.
  unfold metadata_of. destruct (rec_name r), (rec_isValid r); reflexivity.
Qed.

(** The loop from slot [k], on a frame whose first [k] records are [pre]. *)
Lemma decodePresetLoop_records rs : forall pre k acc,
  length pre = (k * METADATA_SIZE)%nat ->
  forallb valid_record rs = true ->
  decodePresetLoop (DataView_of (pre ++ list_frame rs)) k (length rs) acc
  = Normal (acc ++ imap (fun i => metadata_of (k + i)) rs).
Proof.
  induction rs as [|r rs IH]; intros pre k acc Hpre Hv.
  - cbn. rewrite app_nil_r. reflexivity.
  - cbn [forallb] in Hv. apply andb_true_iff in Hv as [Hr Hrs].
    cbn [length decodePresetLoop list_frame flat_map].
    rewrite decodePreset_record by assumption. cbn [cbind].
    change (flat_map record_bytes rs) with (list_frame rs).
    rewrite (app_assoc pre), IH; try assumption.
    + rewrite <- app_assoc. cbn [app imap]. rewrite Nat.add_0_r.
      do 3 f_equal. apply imap_ext. intros i x _. cbn. f_equal. lia.
    + rewrite length_app, Hpre, length_record_bytes by assumption.
      unfold METADATA_SIZE. lia.
Qed.

(** When the first 32 code units of the name encode to at most 32 bytes
    the frame is the slot and the name field; otherwise [buffer.set]
    throws. *)
Lemma encodePresetSave_frame slot nm :
  0 <= slot <= 7 ->
  encodePresetSave slot nm =
    if (length (TextEncoder_encode (slice0 nm NAME_MAX_LENGTH)) <=? 32)%nat
    then Normal (slot :: spec_name_field nm)
    else Throw (mkError RangeError "offset is out of bounds").
Proof.
  intros Hslot. unfold encodePresetSave, MAX_SLOTS, slice0, NAME_MAX_LENGTH.
  replace (slot <? 0) with false by (symmetry; apply Z.ltb_ge; lia).
  replace (slot >=? 8) with false
    by (symmetry; rewrite Z.geb_leb; apply Z.leb_gt; lia).
  cbn [orb]. unfold Uint8Array_set, Uint8Array_new, ToUint8.
  rewrite Z.mod_small by lia.
  set (nb := TextEncoder_encode (take 32 nm)).
  change (<[0%nat:=slot]> (replicate 33 0)) with (slot :: replicate 32 0).
  cbn [length]. rewrite length_replicate.
  destruct (Nat.leb_spec (length nb) 32) as [Hfit|Hbig].
  - replace (33 <? length nb + 1)%nat with false
      by (symmetry; apply Nat.ltb_ge; lia).
    cbn [cbind]. change (take 1 (slot :: replicate 32 0)) with [slot].
    cbn [app]. f_equal. f_equal.
    replace (1 + length nb)%nat with (S (length nb)) by lia. cbn [drop].
    rewrite drop_replicate. unfold spec_name_field.
    destruct (Nat.le_gt_cases (length nm) 32) as [Hshort|Hlong].
    + subst nb. rewrite (take_ge nm 32) by exact Hshort.
      rewrite (take_ge nm 32) in Hfit by exact Hshort.
      rewrite take_app_ge by exact Hfit. rewrite take_replicate.
      f_equal. f_equal. lia.
    + assert (Hlen : length (take 32 nm) = 32%nat) by (rewrite length_take; lia).
      destruct (length_TextEncoder (take 32 nm)) as [Hge Hascii].
      fold nb in Hge, Hascii.
      assert (Ha : Forall is_ascii (take 32 nm)) by (apply Hascii; lia).
      assert (Hnb : nb = take 32 nm).
      { subst nb. rewrite <- (app_nil_r (take 32 nm)) at 1.
        rewrite TextEncoder_ascii_app by exact Ha. apply app_nil_r. }
      replace (TextEncoder_encode nm)
        with (take 32 nm ++ TextEncoder_encode (drop 32 nm))
        by (rewrite <- TextEncoder_ascii_app, take_drop by exact Ha; reflexivity).
      rewrite <- app_assoc, take_app_length' by (symmetry; exact Hlen).
      rewrite Hnb, Hlen. cbn [replicate Nat.sub]. apply app_nil_r.
  - replace (33 <? length nb + 1)%nat with true
      by (symmetry; apply Nat.ltb_lt; lia).
    reflexivity.
Qed.

(** C1 (the code fails it). The name of 17 letters U+00E9 has 17 code
    units, which [slice(0, 32)] keeps, and 34 bytes of UTF-8: [buffer.set]
    throws a [RangeError] where the frame with the name cut at 32 bytes was
    to be returned. *)
Theorem encodePresetSave_throws_on_long_encoding :
  let nm := replicate 17 0xE9 in
  well_formed nm = true
  /\ length (TextEncoder_encode nm) = 34%nat
  /\ encodePresetSave 0 nm
     = Throw (mkError RangeError "offset is out of bounds")
  /\ encodePresetSave 0 nm <> Normal (0 :: spec_name_field nm).
Proof.
  cbv zeta. split; [reflexivity|]. split; [reflexivity|].
  split; [reflexivity|]. rewrite encodePresetSave_frame by lia. discriminate.
Qed.

(** The scenario of the specification: a long ASCII name is cut at 32
    bytes. *)
Example encodePresetSave_long_ascii_name :
  encodePresetSave 3
    (lit "A very long preset name exceeding thirty two characters")
  = Normal (3 :: lit "A very long preset name exceedin").
Proof. reflexivity. Qed.

Example encodePresetSave_short_name :
  encodePresetSave 0 (lit "Test") = Normal (0 :: lit "Test" ++ replicate 28 0).
Proof. reflexivity. Qed.

(** C6. For a slot outside 0..7 each of [encodePresetSave],
    [encodePresetLoad] and [encodePresetDelete] throws 'Invalid slot' and
    returns no frame; for a slot in 0..7 [encodePresetLoad] and
    [encodePresetDelete] return the one-byte frame of the slot. *)
Theorem slot_validation slot nm :
  (slot < 0 \/ 7 < slot ->
     encodePresetSave slot nm = Throw (invalid_slot slot)
     /\ encodePresetLoad slot = Throw (invalid_slot slot)
     /\ encodePresetDelete slot = Throw (invalid_slot slot))
  /\ (0 <= slot <= 7 ->
      encodePresetLoad slot = Normal [slot]
      /\ encodePresetDelete slot = Normal [slot]).
Proof.
  unfold encodePresetSave, encodePresetLoad, encodePresetDelete, MAX_SLOTS.
  rewrite Z.geb_leb. split.
  - intros H.
    assert (E : (slot <? 0) || (8 <=? slot) = true)
      by (apply orb_true_iff; rewrite Z.ltb_lt, Z.leb_le; lia).
    rewrite E. auto.
  - intros H.
    assert (E : (slot <? 0) || (8 <=? slot) = false)
      by (apply orb_false_iff; rewrite Z.ltb_ge, Z.leb_gt; lia).
    rewrite E. unfold Uint8Array_of, ToUint8. cbn [map].
    rewrite Z.mod_small by lia. auto.
Qed.

Lemma slot_validation_witness :
  encodePresetSave 8 (lit "Test") = Throw (invalid_slot 8)
  /\ encodePresetLoad (-1) = Throw (invalid_slot (-1))
  /\ encodePresetDelete 7 = Normal [7].
Proof.
  split; [|split].
  - apply (proj1 (slot_validation 8 (lit "Test"))). lia.
  - apply (proj1 (slot_validation (-1) [])). lia.
  - apply (proj2 (slot_validation 7 [])). lia.
Defined.

Lemma length_list_frame rs :
  forallb valid_record rs = true ->
  length (list_frame rs) = (length rs * METADATA_SIZE)%nat.
Proof.
  unfold list_frame. induction rs as [|r rs IH]; intros Hv; [reflexivity|].
  cbn [forallb] in Hv. apply andb_true_iff in Hv as [Hr Hrs].
  cbn [flat_map length]. rewrite length_app, IH by assumption.
  rewrite length_record_bytes by assumption. lia.
Qed.

(** C2 (as the code has it). For eight records laid out in a 320-byte
    frame, each with a well-formed name of at most 32 bytes of UTF-8
    without NUL or a leading byte order mark, [decodePresetList] returns for
    every record its slot (the index), its timestamp, its [isValid] flag and
    its name, read up to the first zero byte or over the full 32 bytes, an
    empty name being replaced by "[Empty]" by the codec itself. *)
Theorem decodePresetList_roundtrip rs :
  length rs = 8%nat -> forallb valid_record rs = true ->
  length (list_frame rs) = 320%nat
  /\ decodePresetList (DataView_of (list_frame rs))
     = Normal (imap metadata_of rs).
Proof.
  intros Hlen Hv. split.
  - rewrite length_list_frame, Hlen by assumption. reflexivity.
  - unfold decodePresetList. change (Z.to_nat MAX_SLOTS) with 8%nat.
    rewrite <- Hlen.
    apply (decodePresetLoop_records rs [] 0 []); [reflexivity|assumption].
Qed.

Lemma decodePresetList_roundtrip_witness :
  decodePresetList (DataView_of (list_frame example_records))
  = Normal (imap metadata_of example_records).
Proof.
  apply (decodePresetList_roundtrip example_records eq_refl).
  vm_compute. reflexivity.
Defined.

(** C2 (as stated) fails: the codec itself replaces an empty name. The
    frame of eight empty slots, 320 zero bytes, decodes to eight records
    named "[Empty]". *)
Lemma decodePresetList_replaces_empty_name :
  let rs := replicate 8 (mkRecord [] 0 false [0; 0; 0]) in
  list_frame rs = replicate 320 0
  /\ forallb valid_record rs = true
  /\ decodePresetList (DataView_of (list_frame rs))
     = Normal (imap (fun i _ => mkMetadata (Z.of_nat i) (lit "[Empty]") 0 false)
                 rs)
  /\ decodePresetList (DataView_of (list_frame rs))
     <> Normal (imap metadata_as_stored rs).
Proof.
  cbv zeta. split; [reflexivity|]. split; [reflexivity|].
  split; [reflexivity|]. vm_compute. discriminate.
Qed.

(** A byte order mark at the start of a name is not part of the decoded
    text. *)
Example leading_BOM_is_dropped :
  TextDecoder_decode (TextEncoder_encode [0xFEFF; 0x41]) = [0x41].
Proof. reflexivity. Qed.

End CodecSpec.

(** ** The control channel *)

Module MidiBleSpec.
Import JS MidiBle.

Lemma connect_keeps_clock env st :
  lastSendMs (next (connect env st)) = lastSendMs st
  /\ minIntervalMs (next (connect env st)) = minIntervalMs st.
Proof.
  unfold connect. destruct (has_bluetooth env); cbn; [|auto].
  destruct (requestDevice env) as [d|]; cbn; [|auto].
  destruct (gatt_connect env) as [[sv|]|]; cbn; auto.
  destruct (getPrimaryService env); cbn; [|auto].
  destruct (getCharacteristic env); cbn; auto.
Qed.

Lemma call_keeps_interval c st :
  minIntervalMs (next (call c st)) = minIntervalMs st.
Proof.
  destruct c as [env| |now io cc v]; cbn [call].
  - apply connect_keeps_clock.
  - reflexivity.
  - unfold sendControlChange.
    destruct (now - lastSendMs st <? minIntervalMs st); [reflexivity|].
    cbn. destruct (characteristic st); reflexivity.
Qed.

(** The interval is 8 ms throughout a session that starts in [state0]. *)
Lemma run_keeps_interval cs : forall st,
  minIntervalMs (fst (run cs st)) = minIntervalMs st.
Proof.
  induction cs as [|c cs IH]; intros st; cbn [run]; [reflexivity|].
  specialize (IH (next (call c st))).
  destruct (run cs (next (call c st))) as [st' ws]. cbn [fst] in *.
  rewrite IH. apply call_keeps_interval.
Qed.

(** Calls other than sends leave the time of the last send as it is. *)
Lemma run_keeps_lastSendMs cs : forall st,
  forallb (fun c => negb (is_send c)) cs = true ->
  lastSendMs (fst (run cs st)) = lastSendMs st.
Proof.
  induction cs as [|c cs IH]; intros st Hcs; cbn [run]; [reflexivity|].
  cbn [forallb] in Hcs. apply andb_true_iff in Hcs as [Hc Hcs].
  specialize (IH (next (call c st)) Hcs).
  destruct (run cs (next (call c st))) as [st' ws]. cbn [fst] in *.
  rewrite IH. destruct c; cbn [call]; try discriminate.
  - apply connect_keeps_clock.
  - reflexivity.
Qed.

Lemma send_dropped st now io cc value :
  now - lastSendMs st < minIntervalMs st ->
  sendControlChange now io cc value st = mkOutcome st [] (Normal tt).
Proof.
  intros H. unfold sendControlChange.
  apply Z.ltb_lt in H. rewrite H. reflexivity.
Qed.

Lemma send_passed st now io cc value :
  minIntervalMs st <= now - lastSendMs st ->
  sendControlChange now io cc value st =
    let st' := mkState (device st) (server st) (characteristic st) now
                 (minIntervalMs st) in
    match characteristic st with
    | None => mkOutcome st' [] (Throw (mkError PlainError "Not connected"))
    | Some ch => mkOutcome st' [(ch, cc_frame cc value)] io
    end.
Proof.
  intros H. unfold sendControlChange.
  apply Z.ltb_ge in H. rewrite H. reflexivity.
Qed.

(** C4 (as the code has it). A call less than the minimum interval after the
    last call that passed the rate gate, whether or not that call's write
    went through, writes nothing, changes nothing and resolves. Any other
    call records the clock reading and then writes the ASCII frame
    "cc,value" to the characteristic when one is connected, and throws
    'Not connected' without a write when none is. With a connected
    characteristic and the 8 ms interval, two [send(7, 64)] calls 5 ms apart,
    the first one passing the gate, make exactly one write, and two calls
    10 ms apart make two. *)
Theorem sendControlChange_rate_limit st now io cc value :
  let o := sendControlChange now io cc value st in
  (now - lastSendMs st < minIntervalMs st ->
     o = mkOutcome st [] (Normal tt))
  /\ (minIntervalMs st <= now - lastSendMs st ->
        lastSendMs (next o) = now
        /\ match characteristic st with
           | Some ch => writes o = [(ch, cc_frame cc value)] /\ settled o = io
           | None => writes o = []
                     /\ settled o = Throw (mkError PlainError "Not connected")
           end)
  /\ cc_frame 7 64 = lit "7,64"
  /\ (forall ch io', characteristic st = Some ch -> minIntervalMs st = 8 ->
        8 <= now - lastSendMs st ->
        snd (run [CallSend now io 7 64; CallSend (now + 5) io' 7 64] st)
          = [(ch, lit "7,64")]
        /\ snd (run [CallSend now io 7 64; CallSend (now + 10) io' 7 64] st)
          = [(ch, lit "7,64"); (ch, lit "7,64")]).
Proof.
  cbv zeta. split; [|split; [|split]].
  - apply send_dropped.
  - intros H. rewrite send_passed by assumption. cbv zeta.
    destruct (characteristic st); cbn; auto.
  - reflexivity.
  - intros ch io' Hch Hmin Hnow. cbn [run call].
    rewrite (send_passed st) by lia. cbv zeta. rewrite Hch. cbn [next writes].
    split.
    + rewrite send_dropped by (cbn; lia). reflexivity.
    + rewrite send_passed by (cbn; lia). reflexivity.
Qed.

Lemma sendControlChange_rate_limit_witness :
  let st := mkState (Some 1%nat) (Some 2%nat) (Some 3%nat) 0 8 in
  snd (run [CallSend 100 (Normal tt) 7 64; CallSend 105 (Normal tt) 7 64] st)
    = [(3%nat, lit "7,64")]
  /\ snd (run [CallSend 100 (Normal tt) 7 64; CallSend 110 (Normal tt) 7 64] st)
    = [(3%nat, lit "7,64"); (3%nat, lit "7,64")].
Proof.
  cbv zeta.
  apply (proj2 (proj2 (proj2
    (sendControlChange_rate_limit
       (mkState (Some 1%nat) (Some 2%nat) (Some 3%nat) 0 8)
       100 (Normal tt) 7 64))) 3%nat (Normal tt)).
  - reflexivity.
  - reflexivity.
  - cbn. lia.
Defined.

(** C4 (as stated) fails. In this session a send at 100 ms goes through, the
    link drops, a send at 200 ms throws 'Not connected', and the link is
    connected again: the last successful send is the one at 100 ms, yet a
    send at 205 ms, 105 ms after it, writes nothing. *)
Lemma sendControlChange_not_since_last_success :
  let cs := [CallConnect good_env; CallSend 100 (Normal tt) 7 64;
             CallDisconnect; CallSend 200 (Normal tt) 7 64;
             CallConnect good_env] in
  let st := fst (run cs state0) in
  last_successful_send cs state0 None = Some 100
  /\ ~ (205 - 100 < minIntervalMs st)
  /\ characteristic st = Some 3%nat
  /\ writes (sendControlChange 205 (Normal tt) 7 64 st)
     <> [(3%nat, cc_frame 7 64)].
Proof.
  cbv zeta. split; [reflexivity|].
  split; [rewrite run_keeps_interval; cbn; lia|].
  split; [reflexivity|]. vm_compute. discriminate.
Qed.

(** C10. A call made with no characteristic connected, at least the minimum
    interval after the previous attempt, records the clock reading and then
    throws 'Not connected' without a write. The window is thereby measured
    from this attempt: after it, whatever connects or disconnects in
    between, a call less than the interval later is dropped, with no write
    and no error, also when a characteristic is connected by then. *)
Theorem failed_send_opens_window st now io cc value :
  characteristic st = None ->
  minIntervalMs st <= now - lastSendMs st ->
  let o := sendControlChange now io cc value st in
  settled o = Throw (mkError PlainError "Not connected")
  /\ writes o = []
  /\ lastSendMs (next o) = now
  /\ forall cs now' io' cc' value',
       forallb (fun c => negb (is_send c)) cs = true ->
       now' - now < minIntervalMs st ->
       let st' := fst (run cs (next o)) in
       sendControlChange now' io' cc' value' st'
       = mkOutcome st' [] (Normal tt).
Proof.
  intros Hch Hgate. cbv zeta. rewrite send_passed by assumption.
  cbv zeta. rewrite Hch. cbn [settled writes next lastSendMs].
  repeat split.
  intros cs now' io' cc' value' Hcs Hnow'.
  apply send_dropped.
  rewrite run_keeps_lastSendMs, run_keeps_interval by assumption. cbn. lia.
Qed.

Lemma failed_send_opens_window_witness :
  settled (sendControlChange 100 (Normal tt) 7 64 state0)
    = Throw (mkError PlainError "Not connected")
  /\ sendControlChange 105 (Normal tt) 7 64
       (fst (run [CallConnect good_env]
               (next (sendControlChange 100 (Normal tt) 7 64 state0))))
     = mkOutcome
         (mkState (Some 1%nat) (Some 2%nat) (Some 3%nat) 100 8) [] (Normal tt).
Proof.
  pose proof (failed_send_opens_window state0 100 (Normal tt) 7 64
                eq_refl ltac:(cbn; lia)) as (H1 & _ & _ & H4).
  split; [exact H1|].
  exact (H4 [CallConnect good_env] 105 (Normal tt) 7 64 eq_refl
           ltac:(cbn; lia)).
Defined.

End MidiBleSpec.

(** ** The keep-alive service *)

Module KeepAliveSpec.
Import KeepAlive.

Lemma step_invariants st s :
  armed_inv s /\ callback_inv s ->
  let s' := fst (fst (step st s)) in
  armed_inv s' /\ callback_inv s'
  /\ ACTIVITY_TIMEOUT s' = ACTIVITY_TIMEOUT s.
Proof.
  unfold armed_inv, callback_inv. intros [Ha Hc].
  destruct st as [cb|now id| |now|now o]; cbn [step].
  - cbn. intuition congruence.
  - unfold startKeepAlive. destruct (isRunning s) eqn:Hr.
    + cbn. intuition congruence.
    + destruct (sendPingCallback s) eqn:Hcb; cbn; intuition congruence.
  - unfold stopKeepAlive. destruct (isRunning s) eqn:Hr; cbn;
      intuition congruence.
  - cbn. intuition congruence.
  - destruct (pingInterval s) eqn:Hp.
    + destruct (checkAndSendPing now o s). cbn. rewrite Hp. tauto.
    + cbn. rewrite Hp. tauto.
Qed.

Lemma steps_invariants sts : forall s,
  armed_inv s /\ callback_inv s ->
  armed_inv (steps sts s) /\ callback_inv (steps sts s)
  /\ ACTIVITY_TIMEOUT (steps sts s) = ACTIVITY_TIMEOUT s.
Proof.
  induction sts as [|st sts IH]; intros s Hs; cbn [steps]; [tauto|].
  destruct (step_invariants st s Hs) as (Ha & Hc & Ht).
  destruct (IH _ (conj Ha Hc)) as (Ha' & Hc' & Ht').
  split; [exact Ha'|]. split; [exact Hc'|]. congruence.
Qed.

Lemma reachable_invariants config s :
  reachable config s ->
  armed_inv s /\ callback_inv s
  /\ ACTIVITY_TIMEOUT s = default 120000 (cfg_activityTimeout config).
Proof.
  intros (now & sts & ->).
  apply (steps_invariants sts (new now config)).
  unfold armed_inv, callback_inv. cbn. split; [split|]; intros; congruence.
Qed.

(** A tick of the timer of a reachable service. *)
Lemma tick_spec config s now o :
  reachable config s -> pingInterval s <> None ->
  exists cb, sendPingCallback s = Some cb
  /\ step (DoTick now o) s =
       if now - ActivityTracker.lastActivity (activityTracker s)
            <? default 120000 (cfg_activityTimeout config)
       then (s, fst (sendPing o s), Normal tt)
       else (s, [ConsoleLog "Skipping ping - no recent activity"], Normal tt).
Proof.
  intros Hr Hp. destruct (reachable_invariants config s Hr) as (_ & Hc & Ht).
  destruct (sendPingCallback s) as [cb|] eqn:Hcb; [|exact (False_ind _ (Hc Hp Hcb))].
  exists cb. split; [reflexivity|].
  cbn [step]. destruct (pingInterval s); [|congruence].
  unfold checkAndSendPing, shouldSendPing, ActivityTracker.getTimeSinceActivity.
  rewrite Ht. destruct (_ <? _); cbn [negb]; [|reflexivity].
  unfold sendPing. rewrite Hcb. destruct o; reflexivity.
Qed.

(** C5. On a tick of the keep-alive timer the ping callback is called if
    and only if the time since the last activity is strictly below the
    activity timeout (120 s unless configured); otherwise the tick only logs
    that it skips. With the default timeout, a tick 119 s after the last
    activity pings and a tick 121 s after it does not. *)
Theorem tick_pings_iff_recent_activity config s now o :
  reachable config s -> pingInterval s <> None ->
  let es := snd (fst (step (DoTick now o) s)) in
  let timeSinceActivity := ActivityTracker.getTimeSinceActivity now (activityTracker s) in
  (pinged es = true
     <-> timeSinceActivity < default 120000 (cfg_activityTimeout config))
  /\ (pinged es = false
        -> es = [ConsoleLog "Skipping ping - no recent activity"])
  /\ (cfg_activityTimeout config = None ->
        (timeSinceActivity = 119000 -> pinged es = true)
        /\ (timeSinceActivity = 121000 -> pinged es = false)).
Proof.
  intros Hr Hp. cbv zeta. unfold ActivityTracker.getTimeSinceActivity.
  destruct (tick_spec config s now o Hr Hp) as (cb & Hcb & ->).
  assert (Hping : pinged (fst (sendPing o s)) = true)
    by (unfold sendPing; rewrite Hcb; destruct o; reflexivity).
  destruct (Z.ltb_spec (now - ActivityTracker.lastActivity (activityTracker s))
              (default 120000 (cfg_activityTimeout config))) as [Hlt|Hge];
    cbn [fst snd].
  - rewrite Hping. split; [tauto|]. split; [discriminate|].
    intros Hcfg. rewrite Hcfg in Hlt. cbn in Hlt. split; [reflexivity|lia].
  - change (pinged [ConsoleLog "Skipping ping - no recent activity"])
      with false.
    split; [split; [discriminate|lia]|]. split; [reflexivity|].
    intros Hcfg. rewrite Hcfg in Hge. cbn in Hge. split; [lia|reflexivity].
Qed.

Lemma started_reachable : reachable (mkConfig None None None) started.
Proof. exists 0, [DoSetPingCallback 1%nat; DoStart 0 1%positive]. reflexivity. Qed.

Lemma tick_pings_iff_recent_activity_witness :
  pinged (snd (fst (step (DoTick 119000 PingResolves) started))) = true
  /\ pinged (snd (fst (step (DoTick 121000 PingResolves) started))) = false.
Proof.
  split.
  - apply (proj1 (proj2 (proj2
      (tick_pings_iff_recent_activity (mkConfig None None None) started
         119000 PingResolves started_reachable ltac:(discriminate)))
      eq_refl)).
    reflexivity.
  - apply (proj2 (proj2 (proj2
      (tick_pings_iff_recent_activity (mkConfig None None None) started
         121000 PingResolves started_reachable ltac:(discriminate)))
      eq_refl)).
    reflexivity.
Defined.

(** C8. When the ping callback rejects or throws on a tick, the failure is
    caught and logged as a warning and the tick ends normally: the service
    is as it was, running ([isActive()] is true) with its timer still set,
    and every later tick with recent activity calls the callback again. *)
Theorem failed_ping_keeps_scheduler_running config s now o :
  reachable config s -> pingInterval s <> None ->
  shouldSendPing now s = true -> ping_fails o ->
  let r := step (DoTick now o) s in
  let s' := fst (fst r) in
  snd r = Normal tt
  /\ (exists cb, snd (fst r)
                 = [PingCalled cb; ConsoleWarn "Keep-alive ping failed:"])
  /\ s' = s
  /\ isActive s' = true
  /\ pingInterval s' = pingInterval s
  /\ forall now' o', shouldSendPing now' s' = true ->
       pinged (snd (fst (step (DoTick now' o') s'))) = true.
Proof.
  intros Hr Hp Hs Ho. cbv zeta.
  destruct (reachable_invariants config s Hr) as (Ha & _ & Ht).
  assert (Htick : forall now' o', shouldSendPing now' s = true ->
            exists cb, sendPingCallback s = Some cb /\
            step (DoTick now' o') s = (s, fst (sendPing o' s), Normal tt)).
  { intros now' o' Hs'.
    destruct (tick_spec config s now' o' Hr Hp) as (cb & Hcb & E).
    exists cb. split; [assumption|]. rewrite E.
    unfold shouldSendPing, ActivityTracker.getTimeSinceActivity in Hs'.
    rewrite Ht in Hs'. rewrite Hs'. reflexivity. }
  destruct (Htick now o Hs) as (cb & Hcb & ->). cbn [fst snd].
  split; [reflexivity|]. split.
  { exists cb. unfold sendPing. rewrite Hcb.
    destruct o; [contradiction| |]; reflexivity. }
  split; [reflexivity|]. split; [apply Ha; assumption|].
  split; [reflexivity|].
  intros now' o' Hs'. destruct (Htick now' o' Hs') as (cb' & Hcb' & ->).
  cbn [fst snd]. unfold sendPing. rewrite Hcb'. destruct o'; reflexivity.
Qed.

Lemma failed_ping_keeps_scheduler_running_witness :
  let r := step (DoTick 45000
                   (PingRejects (mkError PlainError "GATT operation failed")))
             started in
  snd r = Normal tt
  /\ isActive (fst (fst r)) = true
  /\ pinged (snd (fst (step (DoTick 90000 PingResolves) (fst (fst r))))) = true.
Proof.
  destruct (failed_ping_keeps_scheduler_running (mkConfig None None None)
    started 45000 (PingRejects (mkError PlainError "GATT operation failed"))
    started_reachable ltac:(discriminate) eq_refl I)
    as (Hr & _ & _ & Hrun & _ & Hnext).
  cbv zeta. split; [exact Hr|]. split; [exact Hrun|].
  apply Hnext. reflexivity.
Defined.

End KeepAliveSpec.

(** ** The transport session *)

Module BLESpec.
Import JS BLE.

(** *** Properties of the state that methods keep *)

Lemma keeps_ret {A} (a : A) P : keeps P (ret a) P.
Proof. intros c H. exact H. Qed.

Lemma keeps_throw {A} e P : keeps P (@throw A e) P.
Proof. intros c H. exact H. Qed.

Lemma keeps_get P : keeps P get P.
Proof. intros c H. exact H. Qed.

Lemma keeps_emit e P : keeps P (emit e) P.
Proof. intros c H. exact H. Qed.

Lemma keeps_await {A} (r : Completion A) P : keeps P (await r) P.
Proof. intros c H. exact H. Qed.

Lemma keeps_modify f (P Q : BLEClient -> Prop) :
  (forall c, P c -> Q (f c)) -> keeps P (modify f) Q.
Proof. intros Hf c H. apply Hf, H. Qed.

Lemma keeps_bind {A B} (m : M A) (k : A -> M B) P Q :
  keeps P m Q -> (forall a, keeps Q (k a) Q) -> keeps P (bind m k) Q.
Proof.
  intros Hm Hk c H. specialize (Hm c H). unfold after, bind in *.
  destruct (m c) as [[[a|e] c'] es]; cbn [fst snd] in *; [|exact Hm].
  specialize (Hk a c' Hm). unfold after in Hk.
  destruct (k a c') as [[r c''] es']. exact Hk.
Qed.

Lemma keeps_try_catch {A} (m : M A) (h : JSError -> M A) P Q :
  keeps P m Q -> (forall e, keeps Q (h e) Q) -> keeps P (try_catch m h) Q.
Proof.
  intros Hm Hh c H. specialize (Hm c H). unfold after, try_catch in *.
  destruct (m c) as [[[a|e] c'] es]; cbn [fst snd] in *; [exact Hm|].
  specialize (Hh e c' Hm). unfold after in Hh.
  destruct (h e c') as [[r c''] es']. exact Hh.
Qed.

Lemma keeps_post {A} (m : M A) (P Q R : BLEClient -> Prop) :
  keeps P m Q -> (forall c, Q c -> R c) -> keeps P m R.
Proof. intros Hm HQR c H. apply HQR, Hm, H. Qed.

(** *** Preset support *)

Lemma presets_inv_on_presets : on_presets presets_inv.
Proof.
  intros c c' E. unfold preset_characteristics in E. injection E as E1 E2 E3 E4.
  unfold presets_inv. rewrite <- E1, <- E2, <- E3, <- E4. tauto.
Qed.

Lemma has_save_on_presets : on_presets has_save.
Proof.
  intros c c' E. unfold preset_characteristics in E. injection E as E1 _ _ _.
  unfold has_save. rewrite <- E1. tauto.
Qed.

Lemma keeps_frame f P :
  on_presets P ->
  (forall c, preset_characteristics (f c) = preset_characteristics c) ->
  keeps P (modify f) P.
Proof.
  intros HP Hf. apply keeps_modify. intros c H.
  apply (HP c); [symmetry; apply Hf|exact H].
Qed.

Create HintDb keeps discriminated.
#[local] Hint Resolve keeps_ret keeps_throw keeps_get keeps_emit keeps_await :
  keeps.
#[local] Hint Resolve presets_inv_on_presets has_save_on_presets : keeps.

Ltac keeps_step :=
  match goal with
  | |- keeps _ (bind _ _) _ => apply keeps_bind; [|intros ?]
  | |- keeps _ (try_catch _ _) _ => apply keeps_try_catch; [|intros ?]
  | |- keeps _ (modify _) _ =>
      first [ apply keeps_modify; intros ? H; exact H
            | apply keeps_frame; [auto with keeps|intros []; reflexivity] ]
  | |- keeps _ (pure _) _ => apply keeps_await
  | |- keeps _ (match ?x with _ => _ end) _ => destruct x
  | |- keeps _ (if ?x then _ else _) _ => destruct x
  | |- keeps _ _ _ => solve [auto with keeps]
  end.

Ltac keeps_auto := repeat keeps_step.

(** Read a goal on the state after a method as a [keeps] goal. *)
Ltac as_keeps :=
  match goal with
  | |- forall c, ?P c -> ?Q (after ?m c) => change (keeps P m Q)
  end.

Lemma keeps_notifyStatusChange P b e :
  keeps P (notifyStatusChange b e) P.
Proof.
  intros c H. unfold notifyStatusChange, after, bind, get.
  destruct (onStatusChange c); exact H.
Qed.
#[local] Hint Resolve keeps_notifyStatusChange : keeps.

Lemma keeps_cleanup P : on_presets P -> keeps P cleanup P.
Proof.
  intros HP c H. unfold cleanup, after, bind, get.
  destruct (characteristic c); cbn; apply (HP c); auto.
Qed.

Lemma keeps_discoverPresets env : keeps presets_inv (discoverPresets env) presets_inv.
Proof.
  unfold discoverPresets. apply keeps_try_catch; [|intros e; auto with keeps].
  apply keeps_bind; [auto with keeps|]. intros ch.
  apply keeps_post with (Q := has_save).
  - apply keeps_bind.
    + apply keeps_modify. intros c _. unfold has_save. cbn. discriminate.
    + intros _. keeps_auto.
  - intros c Hc Hnone. contradiction.
Qed.

#[local] Hint Resolve keeps_discoverPresets : keeps.
#[local] Hint Extern 1 (keeps _ cleanup _) =>
  apply keeps_cleanup; auto with keeps : keeps.

Lemma keeps_connect env : keeps presets_inv (connect env) presets_inv.
Proof. unfold connect. keeps_auto. Qed.

Lemma keeps_disconnect : keeps presets_inv disconnect presets_inv.
Proof. unfold disconnect. keeps_auto. Qed.

Lemma keeps_onDisconnected : keeps presets_inv onDisconnected presets_inv.
Proof.
  unfold onDisconnected. apply keeps_bind; [|intros ?; keeps_auto].
  apply keeps_modify. intros c H.
  destruct (device c) as [[id [b|]]|]; exact H.
Qed.

Lemma keeps_sendData io data : keeps presets_inv (sendData io data) presets_inv.
Proof. unfold sendData. keeps_auto. Qed.

Lemma keeps_readData io : keeps presets_inv (readData io) presets_inv.
Proof. unfold readData. keeps_auto. Qed.

#[local] Hint Resolve keeps_connect keeps_disconnect keeps_onDisconnected
  keeps_sendData keeps_readData : keeps.

Section DevicePresets.

Variable loadFromDevice : M unit.

(** The read-back of the settings leaves the preset characteristics as
    they are. *)
Hypothesis loadFromDevice_presets :
  forall c, preset_characteristics (after loadFromDevice c)
            = preset_characteristics c.

Lemma keeps_loadFromDevice : keeps presets_inv loadFromDevice presets_inv.
Proof.
  intros c H. apply (presets_inv_on_presets c); [|exact H].
  symmetry. apply loadFromDevice_presets.
Qed.

#[local] Hint Resolve keeps_loadFromDevice : keeps.




End DevicePresets.


(** The preset characteristics are assigned by a discovery that succeeds
    and by nothing else: a client that reconnects to firmware without them
    keeps those of its previous session, and [hasDevicePresetSupport()]
    stays true. *)
Example preset_support_outlives_session :
  let c := after (connect old_firmware)
             (after disconnect (after (connect new_firmware) client0)) in
  characteristic c = Some 3%nat
  /\ presetSaveCharacteristic c = Some 6%nat
  /\ hasDevicePresetSupport c = true.
Proof. cbv zeta. repeat split. Qed.



(** Without a registered callback nothing is reported. *)
Example disconnect_without_callback :
  disconnect client0 = (Normal tt, client0, []).
Proof. reflexivity. Qed.

End BLESpec.

(** ** The preset frames, beyond the specification *)

Module CodecFrames.
Import JS JSFacts Codec CodecSpec.

(** One record is read when the frame reaches to its [isValid] byte, and
    not otherwise. *)
Lemma decodePreset_bounds bytes k :
  if (k * 40 + 37 <=? length bytes)%nat
  then exists m, decodePreset (DataView_of bytes) k = Normal m
                 /\ slot m = Z.of_nat k
  else exists e, decodePreset (DataView_of bytes) k = Throw e
                 /\ err_kind e = RangeError.
Proof.
  unfold decodePreset, DataView_of, Uint8Array_view, getUint32_le, getUint8,
    METADATA_SIZE.
  cbn [buffer byteOffset byteLength].
  destruct (Nat.leb_spec (k * 40 + 37) (length bytes)) as [Hok|Hshort].
  - replace (_ <? k * 40 + 32)%nat with false by (symmetry; apply Nat.ltb_ge; lia).
    replace (_ <? k * 40 + 32 + 4)%nat with false
      by (symmetry; apply Nat.ltb_ge; lia).
    replace (_ <? k * 40 + 36 + 1)%nat with false
      by (symmetry; apply Nat.ltb_ge; lia).
    cbn [cbind]. eexists. split; reflexivity.
  - destruct (length bytes <? k * 40 + 32)%nat eqn:H1;
      [eexists; split; reflexivity|]. cbn [cbind].
    destruct (length bytes <? k * 40 + 32 + 4)%nat eqn:H2;
      [eexists; split; reflexivity|]. cbn [cbind].
    replace (_ <? k * 40 + 36 + 1)%nat with true
      by (symmetry; apply Nat.ltb_lt; lia).
    eexists; split; reflexivity.
Qed.

Lemma decodePresetLoop_ok bytes n : forall k acc,
  (n = 0 \/ (k + n) * 40 <= length bytes + 3)%nat ->
  exists l, decodePresetLoop (DataView_of bytes) k n acc = Normal (acc ++ l)
            /\ map slot l = map Z.of_nat (seq k n).
Proof.
  induction n as [|n IH]; intros k acc Hn; cbn [decodePresetLoop seq map].
  - exists []. rewrite app_nil_r. split; reflexivity.
  - pose proof (decodePreset_bounds bytes k) as Hk.
    replace (k * 40 + 37 <=? length bytes)%nat with true in Hk
      by (symmetry; apply Nat.leb_le; lia).
    destruct Hk as (m & -> & Hm). cbn [cbind].
    destruct (IH (S k) (acc ++ [m])) as (l & -> & Hl); [lia|].
    exists (m :: l). rewrite <- app_assoc. cbn [app map]. rewrite Hm, Hl.
    split; reflexivity.
Qed.

Lemma decodePresetLoop_short bytes n : forall k acc,
  (0 < n)%nat -> (length bytes + 3 < (k + n) * 40)%nat ->
  exists e, decodePresetLoop (DataView_of bytes) k n acc = Throw e
            /\ err_kind e = RangeError.
Proof.
  induction n as [|n IH]; intros k acc Hn Hshort; [lia|].
  cbn [decodePresetLoop].
  pose proof (decodePreset_bounds bytes k) as Hk.
  destruct (k * 40 + 37 <=? length bytes)%nat eqn:Hb.
  - destruct Hk as (m & -> & Hm). cbn [cbind].
    apply Nat.leb_le in Hb. apply IH; lia.
  - destruct Hk as (e & -> & He). cbn [cbind]. exists e. split; trivial.
Qed.

(** A response is decoded when it has at least 317 bytes, the 7 records
    before the last and the last one up to its [isValid] byte, and then gives
    eight records with the slots 0 to 7 in order, whatever the bytes are; a
    shorter response makes [decodePresetList] throw a [RangeError]. *)
Theorem decodePresetList_length bytes :
  if (317 <=? length bytes)%nat
  then exists l, decodePresetList (DataView_of bytes) = Normal l
                 /\ map slot l = [0; 1; 2; 3; 4; 5; 6; 7]
  else exists e, decodePresetList (DataView_of bytes) = Throw e
                 /\ err_kind e = RangeError.
Proof.
  unfold decodePresetList. change (Z.to_nat MAX_SLOTS) with 8%nat.
  destruct (Nat.leb_spec 317 (length bytes)) as [Hok|Hshort].
  - destruct (decodePresetLoop_ok bytes 8 0 []) as (l & E & Hl); [lia|].
    exists l. split; [exact E|exact Hl].
  - apply decodePresetLoop_short; lia.
Qed.

(** [encodePresetSave] returns a frame exactly when the first 32 code
    units of the name have at most 32 bytes of UTF-8, and the frame then has
    33 bytes: the slot and the encoded name, cut at 32 bytes and zero
    padded. *)
Theorem encodePresetSave_returns_iff slot nm :
  0 <= slot <= 7 ->
  ((exists frame, encodePresetSave slot nm = Normal frame)
   <-> (length (TextEncoder_encode (slice0 nm NAME_MAX_LENGTH)) <= 32)%nat)
  /\ (forall frame, encodePresetSave slot nm = Normal frame ->
        frame = slot :: spec_name_field nm /\ length frame = 33%nat).
Proof.
  intros Hslot. rewrite encodePresetSave_frame by assumption.
  destruct (Nat.leb_spec
              (length (TextEncoder_encode (slice0 nm NAME_MAX_LENGTH))) 32)
    as [Hfit|Hbig].
  - split; [split; eauto|].
    intros frame [= <-]. split; [reflexivity|].
    unfold spec_name_field. cbn [length].
    rewrite length_take, length_app, length_replicate. lia.
  - split; [split; [intros [f Hf]; discriminate|lia]|].
    intros frame Hf. discriminate.
Qed.

Lemma encodePresetSave_returns_iff_witness :
  (exists frame, encodePresetSave 3 (lit "Test") = Normal frame)
  /\ ~ (exists frame, encodePresetSave 3 (replicate 11 0x20AC) = Normal frame).
Proof.
  split.
  - apply (proj1 (encodePresetSave_returns_iff 3 (lit "Test") ltac:(lia))).
    vm_compute. lia.
  - intros H.
    apply (proj1 (encodePresetSave_returns_iff 3 (replicate 11 0x20AC)
                    ltac:(lia))) in H.
    vm_compute in H. lia.
Defined.

(** A name of ASCII characters is always encoded: its first 32 characters,
    one byte each, zero padded to 32 bytes. *)
Theorem encodePresetSave_ascii slot nm :
  0 <= slot <= 7 -> Forall (fun c => 0 <= c <= 0x7F) nm ->
  encodePresetSave slot nm
  = Normal (slot :: take 32 nm ++ replicate (32 - length nm) 0).
Proof.
  intros Hslot Hnm.
  assert (Ha : Forall is_ascii nm)
    by (eapply Forall_impl; [exact Hnm|]; unfold is_ascii; cbn; intros; lia).
  assert (He : forall s, Forall is_ascii s -> TextEncoder_encode s = s).
  { intros s Hs. rewrite <- (app_nil_r s) at 1.
    rewrite TextEncoder_ascii_app by exact Hs. apply app_nil_r. }
  rewrite encodePresetSave_frame by assumption.
  unfold slice0, NAME_MAX_LENGTH, spec_name_field.
  rewrite (He (take 32 nm)) by (apply Forall_take; exact Ha).
  rewrite (He nm) by exact Ha.
  replace (length (take 32 nm) <=? 32)%nat with true
    by (symmetry; apply Nat.leb_le; rewrite length_take; lia).
  do 2 f_equal. rewrite take_app.
  f_equal. rewrite take_replicate. f_equal. lia.
Qed.

Lemma encodePresetSave_ascii_witness :
  encodePresetSave 0 (lit "Test")
  = Normal (0 :: lit "Test" ++ replicate 28 0).
Proof.
  apply (encodePresetSave_ascii 0 (lit "Test")); [lia|].
  repeat constructor; cbn; lia.
Defined.

(** What is saved can be listed: when the 32-byte name field that
    [encodePresetSave] sends for a name stands in the record of a slot of a
    list response, [decodePresetList] reads the name back from it (an empty
    name as "[Empty]"). *)
Theorem saved_name_is_listed slot nm pre rest :
  0 <= slot <= 7 -> valid_name nm = true ->
  length pre = (Z.to_nat slot * 40)%nat -> (5 <= length rest)%nat ->
  exists field m,
    encodePresetSave slot nm = Normal (slot :: field)
    /\ decodePreset (DataView_of (pre ++ field ++ rest)) (Z.to_nat slot)
       = Normal m
    /\ name m = match nm with [] => EMPTY_SLOT_NAME | _ => nm end.
Proof.
  intros Hslot Hv Hpre Hrest.
  pose proof (valid_name_spec _ Hv) as (Hwf & Hnz & Hbom & Hlen).
  pose proof (length_name_field _ Hlen) as Hnf.
  exists (name_field nm).
  assert (Hsave : encodePresetSave slot nm = Normal (slot :: name_field nm)).
  { rewrite encodePresetSave_frame by assumption.
    unfold slice0, NAME_MAX_LENGTH.
    destruct (Nat.le_gt_cases (length nm) 32) as [Hshort|Hlong].
    - rewrite take_ge by exact Hshort.
      replace (_ <=? 32)%nat with true by (symmetry; apply Nat.leb_le; lia).
      unfold spec_name_field, name_field.
      rewrite take_app_ge by exact Hlen. rewrite take_replicate.
      do 4 f_equal. lia.
    - destruct (length_TextEncoder nm) as [Hge _]. lia. }
  unfold decodePreset, DataView_of, Uint8Array_view, getUint32_le, getUint8,
    METADATA_SIZE.
  cbn [buffer byteOffset byteLength].
  rewrite !length_app, Hnf, Hpre.
  replace (_ <? Z.to_nat slot * 40 + 32)%nat with false
    by (symmetry; apply Nat.ltb_ge; lia).
  replace (_ <? Z.to_nat slot * 40 + 32 + 4)%nat with false
    by (symmetry; apply Nat.ltb_ge; lia).
  replace (_ <? Z.to_nat slot * 40 + 36 + 1)%nat with false
    by (symmetry; apply Nat.ltb_ge; lia).
  cbn [cbind].
  rewrite drop_app_length' by (symmetry; exact Hpre).
  rewrite take_app_length' by (symmetry; exact Hnf).
  rewrite (name_field_read _ Hv).
  eexists. split; [exact Hsave|]. split; [reflexivity|].
  cbn [name]. destruct nm; reflexivity.
Qed.

Lemma saved_name_is_listed_witness :
  exists field m,
    encodePresetSave 1 (lit "Lead") = Normal (1 :: field)
    /\ decodePreset (DataView_of (replicate 40 0 ++ field ++ replicate 8 0)) 1
       = Normal m
    /\ name m = lit "Lead".
Proof.
  exact (saved_name_is_listed 1 (lit "Lead") (replicate 40 0) (replicate 8 0)
           ltac:(lia) eq_refl eq_refl ltac:(cbn; lia)).
Defined.

End CodecFrames.

(** ** Sessions of the transport client *)

Module BLESessionSpec.
Import JS JSFacts Codec CodecSpec BLE BLESession.

(** The discovery of the preset characteristics never fails, and touches
    the preset characteristics only. *)
Lemma discoverPresets_spec env c :
  exists c' es,
    discoverPresets env c = (Normal tt, c', es)
    /\ device c' = device c /\ server c' = server c
    /\ characteristic c' = characteristic c
    /\ onStatusChange c' = onStatusChange c
    /\ onDataReceived c' = onDataReceived c
    /\ notified es = []
    /\ presetSaveCharacteristic c'
       = match getCharacteristic env SAVE with
         | Normal ch => Some ch
         | Throw _ => presetSaveCharacteristic c
         end.
Proof.
  unfold discoverPresets, try_catch, bind, await, modify, emit.
  destruct (getCharacteristic env SAVE) as [s|e1]; cbn.
  2: { eexists _, _. repeat split. }
  destruct (getCharacteristic env LOAD) as [l|e2]; cbn.
  2: { eexists _, _. repeat split. }
  destruct (getCharacteristic env LIST) as [li|e3]; cbn.
  2: { eexists _, _. repeat split. }
  destruct (getCharacteristic env DELETE) as [d|e4]; cbn;
    eexists _, _; repeat split.
Qed.

(** Unfold the methods down to the state. *)
Ltac run_method :=
  unfold connect, disconnect, onDisconnected, cleanup, notifyStatusChange,
    sendData, readData, try_catch, bind, await, modify, emit, get, throw, ret,
    pure, after, set_device, set_server, set_characteristic;
  cbn.

(** [connect()] resolves exactly when the platform gives a device with a
    GATT server, the link, the service and the data characteristic; whether
    the preset characteristics are discovered and whether notifications can
    be started has no part in it. *)
Theorem connect_resolves_iff env c :
  is_normal (fst (fst (connect env c))) = can_connect env.
Proof.
  destruct env as [avail req gc gps gch sn]. unfold can_connect.
  cbn [bluetooth_available requestDevice gatt_connect getPrimaryService
       getCharacteristic startNotifications].
  destruct avail; cbn [negb andb].
  2: { run_method. destruct (onStatusChange c); reflexivity. }
  destruct req as [[[id [b|]]|]|e]; cbn [andb].
  2-4: run_method; destruct (onStatusChange c); reflexivity.
  destruct gc as [sv|e]; cbn [is_normal andb].
  2: { run_method. destruct (onStatusChange c); reflexivity. }
  destruct gps as [[]|e]; cbn [is_normal andb].
  2: { run_method. destruct (onStatusChange c); reflexivity. }
  destruct (gch KB1_CHARACTERISTIC_UUID) as [ch|e] eqn:Hch; cbn [is_normal].
  2: { run_method. rewrite Hch. destruct (onStatusChange c); reflexivity. }
  run_method. rewrite Hch.
  match goal with
  | |- context [discoverPresets ?env ?c'] =>
      destruct (discoverPresets_spec env c')
        as (c2 & es & -> & _ & _ & _ & Hcb & _)
  end.
  destruct sn as [[]|e]; cbn; destruct (onStatusChange c2); reflexivity.
Qed.

(** After the data characteristic is obtained [connect()] cannot fail. *)
Ltac finish_connect sn c :=
  match goal with
  | |- context [discoverPresets ?env ?c'] =>
      let c2 := fresh "c2" in
      let es := fresh "es" in
      let Hd := fresh "Hd" in let Hs := fresh "Hs" in
      let Hc := fresh "Hc" in let Hcb := fresh "Hcb" in
      let Hdr := fresh "Hdr" in let Hn := fresh "Hn" in
      let Hsave := fresh "Hsave" in
      destruct (discoverPresets_spec env c')
        as (c2 & es & -> & Hd & Hs & Hc & Hcb & Hdr & Hn & Hsave);
      cbn in Hd, Hs, Hc, Hcb, Hdr, Hsave;
      destruct sn as [[]|?]; cbn;
      rewrite ?Hcb; destruct (onStatusChange c); cbn;
      rewrite ?Hd, ?Hs, ?Hc, ?Hcb, ?Hdr, ?Hsave;
      unfold notified in *; rewrite ?omap_app, ?Hn; cbn
  end.

(** A [connect()] that succeeds leaves the client with the device, its link
    connected, the server and the data characteristic; the callbacks are as
    they were; preset support is found when the save characteristic is
    discovered and otherwise stays as it was; and the status callback, when
    registered, is told once, that the client is connected. *)
Theorem connect_success env c id b sv ch :
  bluetooth_available env = true ->
  requestDevice env = Normal (Some (mkDevice id (Some b))) ->
  gatt_connect env = Normal sv ->
  getPrimaryService env = Normal tt ->
  getCharacteristic env KB1_CHARACTERISTIC_UUID = Normal ch ->
  let r := connect env c in
  let c' := snd (fst r) in
  let status := mkStatus true (Some (mkDevice id (Some true))) None in
  fst (fst r) = Normal tt
  /\ device c' = Some (mkDevice id (Some true))
  /\ server c' = Some sv
  /\ characteristic c' = Some ch
  /\ getStatus c' = status
  /\ onStatusChange c' = onStatusChange c
  /\ onDataReceived c' = onDataReceived c
  /\ hasDevicePresetSupport c'
     = is_normal (getCharacteristic env SAVE) || hasDevicePresetSupport c
  /\ notified (snd r)
     = match onStatusChange c with Some _ => [status] | None => [] end.
Proof.
  destruct env as [avail req gc gps gch sn].
  cbn [bluetooth_available requestDevice gatt_connect getPrimaryService
       getCharacteristic startNotifications].
  intros -> -> -> -> Hch. cbv zeta. run_method. rewrite Hch. cbn.
  finish_connect sn c; unfold getStatus, hasDevicePresetSupport;
    rewrite ?Hd, ?Hsave;
    destruct (gch SAVE); cbn; repeat split.
Qed.



(** A failed [connect()] does not undo what it did: when the link was
    established and the service or the data characteristic is then not
    found, the promise rejects while the client keeps the server and the
    connected device, so that [getStatus()] reports connected; the data
    characteristic is the one it had before. *)
Theorem connect_failure_keeps_link env c id b sv :
  bluetooth_available env = true ->
  requestDevice env = Normal (Some (mkDevice id (Some b))) ->
  gatt_connect env = Normal sv ->
  is_normal (getPrimaryService env)
  && is_normal (getCharacteristic env KB1_CHARACTERISTIC_UUID) = false ->
  let r := connect env c in
  let c' := snd (fst r) in
  is_normal (fst (fst r)) = false
  /\ server c' = Some sv
  /\ connected (getStatus c') = true
  /\ characteristic c' = characteristic c.
Proof.
  destruct env as [avail req gc gps gch sn].
  cbn [bluetooth_available requestDevice gatt_connect getPrimaryService
       getCharacteristic startNotifications].
  intros -> -> -> Hfail. cbv zeta.
  destruct gps as [[]|e]; cbn [is_normal andb] in Hfail.
  2: { run_method. destruct (onStatusChange c); repeat split. }
  destruct (gch KB1_CHARACTERISTIC_UUID) as [ch|e] eqn:Hch;
    cbn [is_normal] in Hfail; [discriminate|].
  run_method. rewrite Hch. cbn. destruct (onStatusChange c); repeat split.
Qed.

Lemma connect_failure_keeps_link_witness :
  let env := mkConnectEnv true (Normal (Some (mkDevice 1 (Some false))))
               (Normal 2%nat) (Throw (mkError PlainError "No Services"))
               (fun _ => Normal 3%nat) (Normal tt) in
  is_normal (fst (fst (connect env client0))) = false
  /\ connected (getStatus (after (connect env) client0)) = true.
Proof.
  cbv zeta.
  destruct (connect_failure_keeps_link
    (mkConnectEnv true (Normal (Some (mkDevice 1 (Some false))))
       (Normal 2%nat) (Throw (mkError PlainError "No Services"))
       (fun _ => Normal 3%nat) (Normal tt))
    client0 1%nat false 2%nat eq_refl eq_refl eq_refl eq_refl)
    as (H1 & _ & H3 & _).
  split; [exact H1|exact H3].
Defined.

Lemma connect_success_witness :
  let c := after (connect old_firmware) client0 in
  characteristic c = Some 3%nat
  /\ getStatus c = mkStatus true (Some (mkDevice 1 (Some true))) None
  /\ hasDevicePresetSupport c = false.
Proof.
  cbv zeta.
  destruct (connect_success old_firmware client0 1%nat false 2%nat 3%nat
              eq_refl eq_refl eq_refl eq_refl eq_refl)
    as (_ & _ & _ & H4 & H5 & _ & _ & H8 & _).
  split; [exact H4|]. split; [exact H5|exact H8].
Defined.

(** Once [disconnect()] has run, or the device has dropped the link,
    [sendData] and [readData] throw 'Not connected to device' and leave the
    transport alone. *)
Theorem no_io_after_disconnect c io data io' :
  let closed_by m := after m c in
  forall c', c' = closed_by disconnect \/ c' = closed_by onDisconnected ->
    sendData io data c' = (Throw not_connected, c', [])
    /\ readData io' c' = (Throw not_connected, c', []).
Proof.
  cbv zeta. intros c' Hc'.
  assert (Hch : characteristic c' = None).
  { destruct c as [d sv ch cb1 cb2 p1 p2 p3 p4].
    destruct Hc' as [-> | ->];
      destruct d as [[id [[|]|]]|], ch as [ch|], cb1 as [cb1|]; reflexivity. }
  unfold sendData, readData, bind, get. rewrite Hch. split; reflexivity.
Qed.

Lemma no_io_after_disconnect_witness :
  let c' := after disconnect (after (connect old_firmware) client0) in
  sendData (Normal tt) [1; 2; 3] c' = (Throw not_connected, c', []).
Proof.
  cbv zeta.
  apply (no_io_after_disconnect (after (connect old_firmware) client0)
           (Normal tt) [1; 2; 3] (Throw not_connected)).
  left. reflexivity.
Defined.

(** *** Device presets on a client that supports them *)

(** A preset command that cannot be encoded never reaches the device:
    [saveDevicePreset] with a slot outside 0..7, or with a name that
    [encodePresetSave] rejects, and [loadDevicePreset] and
    [deleteDevicePreset] with a slot outside 0..7 throw before anything is
    written, on every client. *)
Theorem unencodable_preset_not_written loadFromDevice c io slot nm :
  (forall e, encodePresetSave slot nm = Throw e ->
     exists e', saveDevicePreset io slot nm c = (Throw e', c, []))
  /\ (slot < 0 \/ 7 < slot ->
      exists e1 e2 e3,
        saveDevicePreset io slot nm c = (Throw e1, c, [])
        /\ loadDevicePreset loadFromDevice io slot c = (Throw e2, c, [])
        /\ deleteDevicePreset io slot c = (Throw e3, c, [])).
Proof.
  assert (Hsave : forall e, encodePresetSave slot nm = Throw e ->
            exists e', saveDevicePreset io slot nm c = (Throw e', c, [])).
  { intros e He. unfold saveDevicePreset, bind, get, throw, pure, await.
    destruct (presetSaveCharacteristic c); rewrite ?He; eexists; reflexivity. }
  split; [exact Hsave|]. intros Hslot.
  assert (Hbad : (slot <? 0) || (slot >=? MAX_SLOTS) = true).
  { unfold MAX_SLOTS. rewrite Z.geb_leb. apply orb_true_iff.
    rewrite Z.ltb_lt, Z.leb_le. lia. }
  destruct (Hsave (invalid_slot slot)) as [e1 H1].
  { unfold encodePresetSave. rewrite Hbad. reflexivity. }
  exists e1.
  unfold loadDevicePreset, deleteDevicePreset, bind, get, throw, pure, await,
    encodePresetLoad, encodePresetDelete.
  rewrite Hbad.
  destruct (presetLoadCharacteristic c), (presetDeleteCharacteristic c);
    eexists _, _; repeat split; exact H1.
Qed.

Lemma unencodable_preset_not_written_witness :
  let c := after (connect new_firmware) client0 in
  (exists e, saveDevicePreset (Normal tt) 0 (replicate 17 0xE9) c
             = (Throw e, c, []))
  /\ (exists e, deleteDevicePreset (Normal tt) 8 c = (Throw e, c, [])).
Proof.
  cbv zeta. split.
  - exact (proj1 (unencodable_preset_not_written (ret tt)
                    (after (connect new_firmware) client0) (Normal tt) 0
                    (replicate 17 0xE9))
             (mkError RangeError "offset is out of bounds") eq_refl).
  - destruct (proj2 (unencodable_preset_not_written (ret tt)
                       (after (connect new_firmware) client0) (Normal tt) 8 [])
                ltac:(lia)) as (_ & _ & e3 & _ & _ & H3).
    exists e3. exact H3.
Defined.

(** On a client with the save characteristic, [saveDevicePreset] with a
    slot in 0..7 and a name that fits writes once, to that characteristic,
    the 33-byte frame of the slot and the name field, and settles as the
    write does; the client is unchanged. *)
Theorem saveDevicePreset_writes_frame c ch io slot nm :
  presetSaveCharacteristic c = Some ch ->
  0 <= slot <= 7 ->
  (length (TextEncoder_encode (slice0 nm NAME_MAX_LENGTH)) <= 32)%nat ->
  saveDevicePreset io slot nm c
  = (io, c,
     Written ch (slot :: spec_name_field nm)
     :: match io with
        | Normal _ =>
            [ConsoleLog
               (lit ("Saved to device preset slot " ++ Number_toString slot
                     ++ ": ") ++ nm)]
        | Throw _ => []
        end).
Proof.
  intros Hch Hslot Hfit.
  unfold saveDevicePreset, bind, get, throw, pure, await, emit.
  rewrite Hch, encodePresetSave_frame by assumption.
  apply Nat.leb_le in Hfit. rewrite Hfit.
  destruct io as [[]|e]; reflexivity.
Qed.

Lemma saveDevicePreset_writes_frame_witness :
  let c := after (connect new_firmware) client0 in
  saveDevicePreset (Normal tt) 0 (lit "Test") c
  = (Normal tt, c,
     [Written 6%nat (0 :: spec_name_field (lit "Test"));
      ConsoleLog (lit "Saved to device preset slot 0: Test")]).
Proof.
  cbv zeta.
  apply (saveDevicePreset_writes_frame (after (connect new_firmware) client0)
           6%nat (Normal tt) 0 (lit "Test") eq_refl); [lia|].
  vm_compute. lia.
Defined.

(** On a client with the list characteristic, [listDevicePresets] reads
    once and decodes what it read: a response laid out from eight valid
    records gives their metadata; a response of less than 317 bytes, or a
    failed read, makes it throw. *)
Theorem listDevicePresets_reads_and_decodes c ch :
  presetListCharacteristic c = Some ch ->
  (forall rs, length rs = 8%nat -> forallb valid_record rs = true ->
     listDevicePresets (Normal (DataView_of (list_frame rs))) c
     = (Normal (imap metadata_of rs), c, [ReadFrom ch]))
  /\ (forall bytes, (length bytes < 317)%nat ->
      exists e,
        listDevicePresets (Normal (DataView_of bytes)) c
        = (Throw e, c, [ReadFrom ch])
        /\ err_kind e = RangeError)
  /\ (forall e, listDevicePresets (Throw e) c = (Throw e, c, [ReadFrom ch])).
Proof.
  intros Hch.
  unfold listDevicePresets, bind, get, throw, pure, await, emit.
  rewrite Hch. split; [|split].
  - intros rs Hlen Hv. unfold decodePresetList.
    change (Z.to_nat MAX_SLOTS) with 8%nat. rewrite <- Hlen.
    pose proof (decodePresetLoop_records rs [] 0 [] eq_refl Hv) as H.
    cbn [app] in H. rewrite H. reflexivity.
  - intros bytes Hshort.
    pose proof (CodecFrames.decodePresetLoop_short bytes 8 0 []) as H.
    destruct H as (e & He & Hk); [lia|lia|].
    exists e. unfold decodePresetList. change (Z.to_nat MAX_SLOTS) with 8%nat.
    rewrite He. split; [reflexivity|exact Hk].
  - reflexivity.
Qed.

Lemma listDevicePresets_reads_and_decodes_witness :
  let c := after (connect new_firmware) client0 in
  listDevicePresets (Normal (DataView_of (list_frame example_records))) c
  = (Normal (imap metadata_of example_records), c, [ReadFrom 8%nat]).
Proof.
  cbv zeta.
  apply (proj1 (listDevicePresets_reads_and_decodes
                  (after (connect new_firmware) client0) 8%nat eq_refl));
    [reflexivity|vm_compute; reflexivity].
Defined.

(** On a client with the load characteristic, [loadDevicePreset] with a
    slot in 0..7 writes the one-byte frame of the slot; the settings are
    read back only after the write went through, and the outcome of the
    read-back is then the outcome of the call. *)
Theorem loadDevicePreset_reads_back_after_write loadFromDevice c ch slot :
  presetLoadCharacteristic c = Some ch ->
  0 <= slot <= 7 ->
  (forall e, loadDevicePreset loadFromDevice (Throw e) slot c
             = (Throw e, c, [Written ch [slot]]))
  /\ loadDevicePreset loadFromDevice (Normal tt) slot c
     = (fst (fst (loadFromDevice c)), snd (fst (loadFromDevice c)),
        Written ch [slot]
        :: ConsoleLog
             (lit ("Loaded from device preset slot " ++ Number_toString slot))
        :: snd (loadFromDevice c)).
Proof.
  intros Hch Hslot.
  assert (Hok : (slot <? 0) || (slot >=? MAX_SLOTS) = false).
  { unfold MAX_SLOTS. rewrite Z.geb_leb. apply orb_false_iff.
    rewrite Z.ltb_ge, Z.leb_gt. lia. }
  unfold loadDevicePreset, bind, get, throw, pure, await, emit,
    encodePresetLoad, Uint8Array_of, ToUint8.
  rewrite Hch, Hok. cbn [map]. rewrite Z.mod_small by lia.
  split; [reflexivity|].
  destruct (loadFromDevice c) as [[r c'] es]. reflexivity.
Qed.

Lemma loadDevicePreset_reads_back_after_write_witness :
  let c := after (connect new_firmware) client0 in
  loadDevicePreset (bind (readData (Throw not_connected)) (fun _ => ret tt))
    (Throw (mkError PlainError "GATT operation failed")) 2 c
  = (Throw (mkError PlainError "GATT operation failed"), c,
     [Written 7%nat [2]]).
Proof.
  cbv zeta.
  apply (proj1 (loadDevicePreset_reads_back_after_write
                  (bind (readData (Throw not_connected)) (fun _ => ret tt))
                  (after (connect new_firmware) client0) 7%nat 2 eq_refl
                  ltac:(lia))).
Defined.

(** *** Preset support across sessions *)

#[local] Hint Resolve BLESpec.keeps_ret BLESpec.keeps_throw BLESpec.keeps_get
  BLESpec.keeps_emit BLESpec.keeps_await BLESpec.keeps_notifyStatusChange
  BLESpec.presets_inv_on_presets BLESpec.has_save_on_presets : keeps.
#[local] Hint Extern 1 (keeps _ cleanup _) =>
  apply BLESpec.keeps_cleanup; auto with keeps : keeps.

Lemma discoverPresets_keeps_support env :
  keeps has_save (discoverPresets env) has_save.
Proof.
  unfold discoverPresets.
  apply BLESpec.keeps_try_catch; [|intros e; auto with keeps].
  apply BLESpec.keeps_bind; [auto with keeps|]. intros ch.
  apply BLESpec.keeps_bind.
  - apply BLESpec.keeps_modify. intros c _. unfold has_save. cbn. discriminate.
  - intros _. BLESpec.keeps_auto.
Qed.
#[local] Hint Resolve discoverPresets_keeps_support : keeps.

Lemma call_keeps_support loadFromDevice k c :
  (forall c, preset_characteristics (after loadFromDevice c)
             = preset_characteristics c) ->
  has_save c -> has_save (call loadFromDevice k c).
Proof.
  intros Hl.
  assert (Hk : keeps has_save loadFromDevice has_save).
  { intros c0 H. apply (BLESpec.has_save_on_presets c0); [|exact H].
    symmetry. apply Hl. }
  revert c. destruct k; cbn [call]; BLESpec.as_keeps.
  - unfold setStatusChangeCallback. BLESpec.keeps_auto.
  - unfold setDataReceivedCallback. BLESpec.keeps_auto.
  - unfold connect. BLESpec.keeps_auto.
  - unfold disconnect. BLESpec.keeps_auto.
  - unfold onDisconnected.
    apply BLESpec.keeps_bind; [|intros ?; BLESpec.keeps_auto].
    apply BLESpec.keeps_modify. intros c H.
    destruct (device c) as [[id [b|]]|]; exact H.
  - unfold sendData. BLESpec.keeps_auto.
  - unfold readData. BLESpec.keeps_auto.
  - unfold saveDevicePreset. BLESpec.keeps_auto.
  - unfold loadDevicePreset. BLESpec.keeps_auto.
  - unfold listDevicePresets. BLESpec.keeps_auto.
  - unfold deleteDevicePreset. BLESpec.keeps_auto.
Qed.

(** Preset support is never withdrawn: once the save characteristic was
    discovered, [hasDevicePresetSupport()] stays true through every later
    call, a disconnection and a connection to firmware without the preset
    characteristics included, as neither [cleanup()] nor a failed discovery
    resets it. *)
Theorem preset_support_is_sticky loadFromDevice ks c :
  (forall c, preset_characteristics (after loadFromDevice c)
             = preset_characteristics c) ->
  hasDevicePresetSupport c = true ->
  hasDevicePresetSupport (calls loadFromDevice ks c) = true.
Proof.
  intros Hl Hs.
  assert (H : has_save (calls loadFromDevice ks c)).
  { assert (H0 : has_save c).
    { unfold has_save, hasDevicePresetSupport in *.
      destruct (presetSaveCharacteristic c); [discriminate|discriminate]. }
    clear Hs. revert c H0. induction ks as [|k ks IH]; intros c H0; [exact H0|].
    cbn [calls]. apply IH, call_keeps_support; assumption. }
  unfold has_save in H. unfold hasDevicePresetSupport.
  destruct (presetSaveCharacteristic (calls loadFromDevice ks c));
    [reflexivity|contradiction].
Qed.

Lemma preset_support_is_sticky_witness :
  hasDevicePresetSupport
    (calls (ret tt) [CallDisconnect; CallConnect old_firmware]
       (after (connect new_firmware) client0)) = true.
Proof.
  apply (preset_support_is_sticky (ret tt)
           [CallDisconnect; CallConnect old_firmware]
           (after (connect new_firmware) client0));
    [intros c; reflexivity|reflexivity].
Defined.

End BLESessionSpec.

(** ** Sessions of the control channel *)

Module MidiBleSessionSpec.
Import JS JSFacts MidiBle MidiBleSpec MidiBleSession.

Lemma timed_writes_run cs : forall st,
  map snd (timed_writes cs st) = snd (run cs st).
Proof.
  induction cs as [|c cs IH]; intros st; [reflexivity|].
  cbn [timed_writes run]. specialize (IH (next (call c st))).
  destruct (run cs (next (call c st))) as [st' ws]. cbn [snd] in *.
  rewrite map_app, IH. f_equal.
  destruct c as [env| |now io cc v]; cbn [call].
  - unfold connect. destruct (has_bluetooth env); [|reflexivity]. cbn.
    destruct (requestDevice env); cbn; [|reflexivity].
    destruct (gatt_connect env) as [[sv|]|]; cbn; try reflexivity.
    destruct (getPrimaryService env); cbn; [|reflexivity].
    destruct (getCharacteristic env); reflexivity.
  - reflexivity.
  - rewrite map_map. cbn. apply map_id.
Qed.

Lemma spaced_from_earlier d w w' ts : w <= w' -> spaced d w' ts -> spaced d w ts.
Proof. destruct ts as [|t ts]; cbn; [trivial|]. intros Hw [H1 H2]. split; [lia|exact H2]. Qed.

Lemma nondecreasing_from_earlier w w' ts :
  w <= w' -> nondecreasing w' ts -> nondecreasing w ts.
Proof.
  destruct ts as [|t ts]; cbn; [trivial|]. intros Hw [H1 H2].
  split; [lia|exact H2].
Qed.

Lemma timed_writes_spaced cs : forall st,
  nondecreasing (lastSendMs st) (send_times cs) ->
  spaced (minIntervalMs st) (lastSendMs st) (map fst (timed_writes cs st)).
Proof.
  induction cs as [|c cs IH]; intros st Hmono; [exact I|].
  cbn [timed_writes]. rewrite map_app.
  destruct c as [env| |now io cc v]; cbn [call app map send_times] in *.
  - destruct (connect_keeps_clock env st) as [E1 E2].
    rewrite <- E1, <- E2. apply IH. rewrite E1. exact Hmono.
  - apply (IH (next (disconnect st))). exact Hmono.
  - destruct Hmono as [Hnow Hmono].
    destruct (Z.lt_ge_cases (now - lastSendMs st) (minIntervalMs st)) as [Hd|Hp].
    + rewrite send_dropped by exact Hd. cbn [writes next map app].
      apply IH. eapply nondecreasing_from_earlier; [exact Hnow|exact Hmono].
    + rewrite send_passed by exact Hp. cbv zeta.
      destruct (characteristic st) as [ch|]; cbn [writes next map app fst].
      * split; [exact Hp|]. apply (IH (mkState _ _ _ now _)). exact Hmono.
      * eapply spaced_from_earlier; [exact Hnow|].
        apply (IH (mkState _ _ _ now _)). exact Hmono.
Qed.

(** The rate limit over a session. When the clock never runs backwards,
    the sends that reach the transport are at least the minimum interval
    apart, and the first of them is at least the interval after the time of
    the last send recorded before the session. *)
Theorem writes_are_spaced cs st :
  nondecreasing (lastSendMs st) (send_times cs) ->
  map snd (timed_writes cs st) = snd (run cs st)
  /\ spaced (minIntervalMs st) (lastSendMs st) (map fst (timed_writes cs st)).
Proof.
  intros Hmono. split; [apply timed_writes_run|].
  apply timed_writes_spaced, Hmono.
Qed.

Lemma writes_are_spaced_witness :
  let cs := [CallConnect good_env; CallSend 100 (Normal tt) 7 1;
             CallSend 104 (Normal tt) 7 2; CallSend 108 (Normal tt) 7 3;
             CallSend 115 (Normal tt) 7 4; CallSend 116 (Normal tt) 7 5] in
  map fst (timed_writes cs state0) = [100; 108; 116]
  /\ spaced 8 0 (map fst (timed_writes cs state0)).
Proof.
  cbv zeta. split; [reflexivity|].
  apply (writes_are_spaced
           [CallConnect good_env; CallSend 100 (Normal tt) 7 1;
            CallSend 104 (Normal tt) 7 2; CallSend 108 (Normal tt) 7 3;
            CallSend 115 (Normal tt) 7 4; CallSend 116 (Normal tt) 7 5]
           state0).
  cbn. lia.
Defined.

(** [connect()] is all or nothing: it writes nothing and leaves the time of
    the last send alone; when it fails the state is as it was, and when it
    succeeds the three handles are those the platform gave. *)
Theorem connect_all_or_nothing env st :
  let o := connect env st in
  writes o = []
  /\ match settled o with
     | Throw _ => next o = st
     | Normal _ =>
         exists d sv ch,
           requestDevice env = Normal d
           /\ gatt_connect env = Normal (Some sv)
           /\ getCharacteristic env = Normal ch
           /\ next o = mkState (Some d) (Some sv) (Some ch)
                         (lastSendMs st) (minIntervalMs st)
     end.
Proof.
  unfold connect. destruct (has_bluetooth env); cbn; [|split; reflexivity].
  destruct (requestDevice env) as [d|]; cbn; [|split; reflexivity].
  destruct (gatt_connect env) as [[sv|]|]; cbn; try (split; reflexivity).
  destruct (getPrimaryService env); cbn; [|split; reflexivity].
  destruct (getCharacteristic env) as [ch|]; cbn; [|split; reflexivity].
  split; [reflexivity|]. exists d, sv, ch. repeat split.
Qed.

(** After [disconnect()] no send reaches the transport until a [connect()]
    is made. *)
Theorem no_write_after_disconnect cs st :
  forallb (fun c => negb (is_connect c)) cs = true ->
  snd (run (CallDisconnect :: cs) st) = [].
Proof.
  intros Hcs. cbn [run call].
  assert (H : forall st, characteristic st = None -> snd (run cs st) = []).
  { clear st. induction cs as [|c cs IH]; intros st Hch; [reflexivity|].
    cbn [forallb] in Hcs. apply andb_true_iff in Hcs as [Hc Hcs].
    cbn [run]. specialize (IH Hcs).
    destruct c as [env| |now io cc v]; try discriminate; cbn [call].
    - specialize (IH (next (disconnect st)) eq_refl).
      destruct (run cs (next (disconnect st))). cbn in *. exact IH.
    - unfold sendControlChange.
      destruct (now - lastSendMs st <? minIntervalMs st).
      + specialize (IH st Hch). cbn [next writes].
        destruct (run cs st). cbn in *. exact IH.
      + cbn. rewrite Hch. cbn [next writes].
        match goal with |- context [run cs ?s] =>
          specialize (IH s eq_refl); destruct (run cs s) end.
        cbn in *. exact IH. }
  specialize (H (next (disconnect st)) eq_refl).
  destruct (run cs (next (disconnect st))). cbn in *. exact H.
Qed.

Lemma no_write_after_disconnect_witness :
  snd (run [CallDisconnect; CallSend 100 (Normal tt) 7 64;
            CallSend 200 (Normal tt) 7 65]
         (next (connect good_env state0))) = [].
Proof.
  apply (no_write_after_disconnect
           [CallSend 100 (Normal tt) 7 64; CallSend 200 (Normal tt) 7 65]).
  reflexivity.
Defined.

(** *** The frame *)

Lemma lit_app s t : lit (s ++ t) = lit s ++ lit t.
Proof. induction s as [|a s IH]; cbn; [reflexivity|]. rewrite IH. reflexivity. Qed.

Lemma lit_inj s : forall t, lit s = lit t -> s = t.
Proof.
  induction s as [|a s IH]; intros [|b t] H; cbn in H; try discriminate;
    [reflexivity|].
  injection H as Hab Hst. f_equal; [|apply IH, Hst].
  apply N2Z.inj in Hab.
  rewrite <- (ascii_N_embedding a), <- (ascii_N_embedding b), Hab. reflexivity.
Qed.

Lemma lit_decimal_ascii s :
  all_chars (fun a => is_decimal_char a || Ascii.eqb a ",") s = true ->
  Forall is_ascii (lit s).
Proof.
  induction s as [|a s IH]; cbn [all_chars lit]; intros H; constructor.
  - apply andb_true_iff in H as [Ha _]. unfold is_ascii, is_decimal_char in *.
    apply orb_true_iff in Ha as [Ha|Ha].
    + apply orb_true_iff in Ha as [Ha|Ha].
      * apply andb_true_iff in Ha as [_ Ha]. apply N.leb_le in Ha. lia.
      * apply N.eqb_eq in Ha. lia.
    + apply Ascii.eqb_eq in Ha. subst a. cbn. lia.
  - apply IH. apply andb_true_iff in H. tauto.
Qed.

Lemma all_chars_app P s t :
  all_chars P (s ++ t) = all_chars P s && all_chars P t.
Proof.
  induction s as [|a s IH]; cbn; [reflexivity|].
  rewrite IH. apply andb_assoc.
Qed.

Lemma all_chars_impl (P Q : ascii -> bool) s :
  (forall a, P a = true -> Q a = true) ->
  all_chars P s = true -> all_chars Q s = true.
Proof.
  intros HPQ. induction s as [|a s IH]; cbn; [trivial|].
  rewrite !andb_true_iff. intros [Ha Hs]. auto.
Qed.

Lemma string_of_uint_decimal d :
  all_chars is_decimal_char (NilEmpty.string_of_uint d) = true.
Proof. induction d; cbn; trivial. Qed.

(** The decimal numeral of an integer has digits and a sign only. *)
Lemma Number_toString_decimal n :
  all_chars is_decimal_char (Number_toString n) = true.
Proof.
  unfold Number_toString, NilZero.string_of_int, NilZero.string_of_uint.
  destruct (Z.to_int n) as [d|d]; destruct d; cbn [all_chars];
    try reflexivity;
    try (rewrite ?andb_true_iff; repeat split; try reflexivity;
         apply string_of_uint_decimal).
Qed.

Lemma Number_toString_inj n m :
  Number_toString n = Number_toString m -> n = m.
Proof.
  unfold Number_toString. intros H.
  apply DecimalZ.to_int_inj.
  assert (Hn : forall z, NilZero.int_of_string
                           (NilZero.string_of_int (Z.to_int z))
                         = Some (Z.to_int z)).
  { intros z. apply NilZero.isi.
    - destruct z; cbn; try discriminate.
      + unfold Pos.to_int. intros [= E].
        pose proof (DecimalPos.Unsigned.to_uint_nonnil p). congruence.
    - destruct z; cbn; try discriminate.
      unfold Pos.to_int. intros [= E].
      pose proof (DecimalPos.Unsigned.to_uint_nonnil p). congruence. }
  pose proof (Hn n) as E1. rewrite H, Hn in E1. congruence.
Qed.

(** Two strings without a comma, each followed by a comma, are equal when
    the whole texts are. *)
Lemma split_at_comma s1 : forall s1' s2 s2',
  all_chars is_decimal_char s1 = true ->
  all_chars is_decimal_char s1' = true ->
  (s1 ++ "," ++ s2 = s1' ++ "," ++ s2')%string ->
  s1 = s1' /\ s2 = s2'.
Proof.
  induction s1 as [|a s1 IH]; intros [|b s1'] s2 s2' H1 H1' E; cbn in *.
  - injection E as E. auto.
  - injection E as Eb E. subst b. discriminate.
  - injection E as Ea E. subst a. discriminate.
  - injection E as Eab E. subst b.
    apply andb_true_iff in H1 as [_ H1]. apply andb_true_iff in H1' as [_ H1'].
    destruct (IH _ _ _ H1 H1' E) as [-> ->]. auto.
Qed.

(** The frame of a control change with integer arguments is the ASCII text
    "cc,value", and different control changes have different frames. *)
Theorem cc_frame_unambiguous cc value cc' value' :
  Number_isSafeInteger cc = true -> Number_isSafeInteger value = true ->
  Number_isSafeInteger cc' = true -> Number_isSafeInteger value' = true ->
  cc_frame cc value
  = lit (Number_toString cc) ++ [44] ++ lit (Number_toString value)
  /\ (cc_frame cc value = cc_frame cc' value' <-> cc = cc' /\ value = value').
Proof.
  intros _ _ _ _.
  assert (Hframe : forall a b,
            cc_frame a b = lit (Number_toString a ++ "," ++ Number_toString b)).
  { intros a b. unfold cc_frame.
    rewrite <- (app_nil_r (lit _)) at 1.
    rewrite TextEncoder_ascii_app; [apply app_nil_r|].
    apply lit_decimal_ascii.
    rewrite all_chars_app. cbn [all_chars append].
    rewrite !andb_true_iff. repeat split.
    - eapply all_chars_impl; [|apply Number_toString_decimal].
      intros c ->. reflexivity.
    - eapply all_chars_impl; [|apply Number_toString_decimal].
      intros c ->. reflexivity. }
  split.
  - rewrite Hframe, lit_app. reflexivity.
  - split.
    + rewrite !Hframe. intros E. apply lit_inj in E.
      apply split_at_comma in E; try apply Number_toString_decimal.
      destruct E as [E1 E2].
      split; apply Number_toString_inj; assumption.
    + intros [-> ->]. reflexivity.
Qed.

Lemma cc_frame_unambiguous_witness :
  cc_frame 7 64 = lit (Number_toString 7) ++ [44] ++ lit (Number_toString 64)
  /\ (cc_frame 7 64 = cc_frame 74 6 <-> 7 = 74 /\ 64 = 6).
Proof. apply (cc_frame_unambiguous 7 64 74 6); reflexivity. Defined.

End MidiBleSessionSpec.

(** ** Traces of the keep-alive service *)

Module KeepAliveTraceSpec.
Import KeepAlive KeepAliveSpec KeepAliveTrace.

Lemma armed_app es1 : forall es2 timers,
  armed (es1 ++ es2) timers = armed es2 (armed es1 timers).
Proof.
  induction es1 as [|e es1 IH]; intros es2 timers; [reflexivity|].
  destruct e; cbn [app armed]; apply IH.
Qed.

Lemma step_timer st s :
  armed_inv s -> tracking_inv s ->
  let '(s', es, _) := step st s in
  armed_inv s' /\ tracking_inv s'
  /\ armed es (timer_of s) = timer_of s'
  /\ PING_INTERVAL s' = PING_INTERVAL s.
Proof.
  unfold armed_inv, tracking_inv, timer_of. intros Ha Ht.
  destruct st as [cb|now id| |now|now o]; cbn [step].
  - cbn. tauto.
  - unfold startKeepAlive. destruct (isRunning s) eqn:Hr.
    + cbn. rewrite Hr. tauto.
    + destruct (sendPingCallback s) eqn:Hcb.
      * assert (Hp : pingInterval s = None).
        { destruct (pingInterval s); [|reflexivity].
          assert (false = true) by (apply Ha; discriminate). discriminate. }
        rewrite Ht, Hp. cbn. unfold ActivityTracker.start. rewrite Ht. cbn.
        repeat split; intros; congruence.
      * cbn. rewrite Hr. tauto.
  - unfold stopKeepAlive. destruct (isRunning s) eqn:Hr; cbn.
    + destruct (pingInterval s) as [id|] eqn:Hp.
      * cbn. rewrite Pos.eqb_refl. cbn. rewrite Ht. cbn.
        unfold ActivityTracker.stop. rewrite Ht. cbn.
        repeat split; intros; congruence.
      * exfalso. apply Ha; reflexivity.
    + rewrite Hr. tauto.
  - cbn. tauto.
  - destruct (pingInterval s) eqn:Hp.
    + unfold checkAndSendPing. destruct (negb (shouldSendPing now s)); cbn.
      * rewrite Hp. tauto.
      * unfold sendPing. destruct (sendPingCallback s); [destruct o|]; cbn;
          rewrite Hp; tauto.
    + cbn. rewrite Hp. tauto.
Qed.

Lemma steps_timer sts : forall s,
  armed_inv s -> tracking_inv s ->
  armed_inv (steps sts s) /\ tracking_inv (steps sts s)
  /\ armed (effects sts s) (timer_of s) = timer_of (steps sts s)
  /\ PING_INTERVAL (steps sts s) = PING_INTERVAL s.
Proof.
  induction sts as [|st sts IH]; intros s Ha Ht; cbn [steps effects].
  - tauto.
  - pose proof (step_timer st s Ha Ht) as H.
    destruct (step st s) as [[s' es] r]. cbn [fst].
    destruct H as (Ha' & Ht' & Harmed & Hp).
    destruct (IH s' Ha' Ht') as (Ha'' & Ht'' & Harmed' & Hp').
    rewrite armed_app, Harmed.
    split; [exact Ha''|]. split; [exact Ht''|]. split; [exact Harmed'|].
    congruence.
Qed.

(** The service never leaks a timer: after any sequence of calls, user
    activity and ticks, the interval timers set and not cleared are the one
    the service holds while it runs, and none when it does not. *)
Theorem at_most_one_timer config now sts :
  let s := steps sts (new now config) in
  armed (effects sts (new now config)) [] = timer_of s
  /\ (length (timer_of s) <= 1)%nat
  /\ (timer_of s = [] <-> isActive s = false).
Proof.
  cbv zeta.
  destruct (steps_timer sts (new now config)) as (Ha & _ & Harmed & _).
  { unfold armed_inv. cbn. split; intros; congruence. }
  { reflexivity. }
  split; [exact Harmed|]. unfold timer_of, isActive, armed_inv in *.
  destruct (pingInterval (steps sts (new now config))); cbn.
  - split; [lia|]. split; [discriminate|].
    intros Hr. assert (isRunning (steps sts (new now config)) = true)
      by (apply Ha; discriminate). congruence.
  - split; [lia|]. split; [|reflexivity]. intros _.
    destruct (isRunning (steps sts (new now config))); [|reflexivity].
    exfalso. apply Ha; reflexivity.
Qed.

(** What a service keeps true whatever happens to it: the listeners of the
    activity tracker are attached exactly while it runs, a running service
    has its ping callback, and the ping period and the activity timeout are
    those of the configuration (45 s and 120 s by default). *)
Theorem service_invariants config s :
  reachable config s ->
  ActivityTracker.isTracking (activityTracker s) = isActive s
  /\ (isActive s = true -> sendPingCallback s <> None)
  /\ PING_INTERVAL s = default 45000 (cfg_pingInterval config)
  /\ ACTIVITY_TIMEOUT s = default 120000 (cfg_activityTimeout config).
Proof.
  intros Hr. pose proof (reachable_invariants config s Hr) as (Ha & Hc & Hto).
  destruct Hr as (now & sts & ->).
  destruct (steps_timer sts (new now config)) as (_ & Ht & _ & Hp).
  { unfold armed_inv. cbn. split; intros; congruence. }
  { reflexivity. }
  split; [exact Ht|]. split; [|split; [exact Hp|exact Hto]].
  intros Hrun. apply Hc, Ha, Hrun.
Qed.

Lemma service_invariants_witness :
  ActivityTracker.isTracking (activityTracker started) = true
  /\ PING_INTERVAL started = 45000.
Proof.
  destruct (service_invariants (mkConfig None None None) started
              started_reachable) as (H1 & _ & H3 & _).
  split; [exact H1|exact H3].
Defined.

(** [startKeepAlive] and [stopKeepAlive] are idempotent: a second start
    leaves the service as the first left it and sets no timer, and a second
    stop does nothing at all. *)
Theorem start_stop_idempotent s now id now' id' :
  let s1 := fst (startKeepAlive now id s) in
  let s2 := fst (stopKeepAlive s) in
  fst (startKeepAlive now' id' s1) = s1
  /\ armed (snd (startKeepAlive now' id' s1)) [] = []
  /\ stopKeepAlive s2 = (s2, []).
Proof.
  cbv zeta. unfold startKeepAlive, stopKeepAlive.
  destruct (isRunning s) eqn:Hr; cbn [fst snd negb].
  - rewrite Hr. cbn. repeat split.
  - destruct (sendPingCallback s) eqn:Hcb; cbn [fst snd isRunning negb];
      rewrite ?Hr, ?Hcb; cbn; repeat split.
Qed.

End KeepAliveTraceSpec.

(** ** [throttle] *)

Module ThrottleSpec.
Import Throttle.

Section Throttled.
Context {Args : Type}.
Implicit Types w : World Args.

Lemma event_pending_inv delay e w :
  pending_inv w -> pending_inv (fst (event delay e w)).
Proof.
  destruct w as [lc tid p]. unfold pending_inv. cbn [pending timeoutId].
  intros Hw. destruct e as [now id args|now id]; cbn [event].
  - unfold invoke. cbn [lastCall timeoutId pending].
    destruct (now - lc >=? delay); cbn [fst pending timeoutId].
    + exact Hw.
    + destruct p as [|[old [due a]] [|? ?]]; try contradiction.
      * destruct tid; reflexivity.
      * rewrite Hw. cbn. rewrite Pos.eqb_refl. reflexivity.
  - unfold fire. cbn [pending timeoutId lastCall].
    destruct p as [|[old [due a]] [|? ?]]; try contradiction; cbn.
    + exact I.
    + destruct (Pos.eqb old id) eqn:E; cbn; rewrite ?E; cbn;
        [exact I|exact Hw].
Qed.

Lemma events_pending_inv delay es : forall w,
  pending_inv w -> pending_inv (events delay es w).
Proof.
  induction es as [|e es IH]; intros w Hw; [exact Hw|].
  cbn [events]. apply IH, event_pending_inv, Hw.
Qed.

(** However the throttled function is called and whenever its timeouts
    fire, at most one timeout is pending, and it is the one whose handle the
    closure holds. *)
Theorem at_most_one_timeout delay es :
  let w := events delay es (world0 Args) in
  (length (pending w) <= 1)%nat
  /\ forall id due args, In (id, (due, args)) (pending w) -> timeoutId w = Some id.
Proof.
  cbv zeta. pose proof (events_pending_inv delay es (world0 Args) I) as H.
  unfold pending_inv in H.
  destruct (pending (events delay es (world0 Args))) as [|[id [due a]] [|? ?]];
    try contradiction; cbn.
  - split; [lia|]. intros ? ? ? [].
  - split; [lia|]. intros id' due' a' [[= <- _ _]|[]]. exact H.
Qed.

(** A call at least [delay] after the last run of [func] runs it at once
    with its arguments and leaves the pending timeout alone. A call within
    the window does not run [func]: it leaves exactly one timeout, due at the
    end of the window, that carries the arguments of this call, whatever was
    pending before; when that timeout fires [func] runs with them and nothing
    is left pending. *)
Theorem leading_and_trailing_edge delay es now id args :
  let w := events delay es (world0 Args) in
  let r := invoke delay now id args w in
  (delay <= now - lastCall w ->
     r = (mkWorld Args now (timeoutId w) (pending w), Some args))
  /\ (now - lastCall w < delay ->
        r = (mkWorld Args (lastCall w) (Some id)
               [(id, (lastCall w + delay, args))], None)
        /\ forall later,
             fire later id (fst r)
             = (mkWorld Args later (Some id) [], Some args)).
Proof.
  cbv zeta. pose proof (events_pending_inv delay es (world0 Args) I) as H.
  set (w := events delay es (world0 Args)) in *. clearbody w.
  unfold invoke. split; intros Hd.
  - replace (now - lastCall w >=? delay) with true
      by (symmetry; apply Z.geb_le; lia).
    reflexivity.
  - replace (now - lastCall w >=? delay) with false
      by (symmetry; rewrite Z.geb_leb; apply Z.leb_gt; lia).
    assert (Hp : match timeoutId w with
                 | Some old => clearTimeout Args old (pending w)
                 | None => pending w
                 end = []).
    { unfold pending_inv in H.
      destruct (pending w) as [|[old [due a]] [|? ?]]; try contradiction.
      - destruct (timeoutId w); reflexivity.
      - rewrite H. cbn. rewrite Pos.eqb_refl. reflexivity. }
    rewrite Hp. cbn [app fst].
    replace (now + (delay - (now - lastCall w))) with (lastCall w + delay) by lia.
    split; [reflexivity|].
    intros later. unfold fire. cbn. rewrite Pos.eqb_refl. reflexivity.
Qed.

End Throttled.

Lemma leading_and_trailing_edge_witness :
  let es := [Invoke 1000 1%positive "mousemove"%string;
             Invoke 1100 2%positive "click"%string] in
  invoke 500 1200 3%positive "keydown"%string (events 500 es (world0 string))
  = (mkWorld string 1000 (Some 3%positive)
       [(3%positive, (1500, "keydown"%string))], None)
  /\ invoke 500 1500 4%positive "scroll"%string (events 500 es (world0 string))
     = (mkWorld string 1500 (Some 2%positive)
          [(2%positive, (1500, "click"%string))], Some "scroll"%string).
Proof.
  cbv zeta. split.
  - apply (proj2 (leading_and_trailing_edge 500
             [Invoke 1000 1%positive "mousemove"%string;
              Invoke 1100 2%positive "click"%string]
             1200 3%positive "keydown"%string)).
    vm_compute. reflexivity.
  - apply (proj1 (leading_and_trailing_edge 500
             [Invoke 1000 1%positive "mousemove"%string;
              Invoke 1100 2%positive "click"%string]
             1500 4%positive "scroll"%string)).
    vm_compute. discriminate.
Defined.

End ThrottleSpec.

(** ** The device state composable *)

Module DeviceStateSpec.
Import JS Codec DeviceState.

Lemma decodePreset_slot data k m :
  decodePreset data k = Normal m -> slot m = Z.of_nat k.
Proof.
  unfold decodePreset.
  destruct (Uint8Array_view _ _ _); cbn [cbind]; [|discriminate].
  destruct (getUint32_le _ _); cbn [cbind]; [|discriminate].
  destruct (getUint8 _ _); cbn [cbind]; [|discriminate].
  intros [= <-]. reflexivity.
Qed.

Lemma decodePresetLoop_slots data n : forall k acc l,
  decodePresetLoop data k n acc = Normal l ->
  exists l', l = acc ++ l' /\ map slot l' = map Z.of_nat (seq k n).
Proof.
  induction n as [|n IH]; intros k acc l; cbn [decodePresetLoop seq map].
  - intros [= <-]. exists []. rewrite app_nil_r. split; reflexivity.
  - destruct (decodePreset data k) as [m|e] eqn:Em; cbn [cbind]; [|discriminate].
    intros H. apply IH in H. destruct H as (l' & -> & Hl').
    exists (m :: l'). rewrite <- app_assoc. split; [reflexivity|].
    cbn [map]. rewrite (decodePreset_slot _ _ _ Em), Hl'. reflexivity.
Qed.

Lemma decodePresetList_slots data l :
  decodePresetList data = Normal l ->
  map slot l = [0; 1; 2; 3; 4; 5; 6; 7].
Proof.
  unfold decodePresetList. intros H.
  apply decodePresetLoop_slots in H. destruct H as (l' & -> & Hl').
  exact Hl'.
Qed.

(** What [listDevicePresets] does, whatever the client. *)
Lemma listDevicePresets_cases io c :
  match BLE.presetListCharacteristic c with
  | None => BLE.listDevicePresets io c = (Throw BLE.presets_unsupported, c, [])
  | Some ch =>
      BLE.listDevicePresets io c
      = (cbind io decodePresetList, c, [BLE.ReadFrom ch])
  end.
Proof.
  unfold BLE.listDevicePresets, BLE.bind, BLE.get, BLE.throw, BLE.pure,
    BLE.await, BLE.emit.
  destruct (BLE.presetListCharacteristic c); [|reflexivity].
  destruct io as [d|e]; cbn; [|reflexivity].
  destruct (decodePresetList d); reflexivity.
Qed.

Lemma refresh_spec io s :
  exists s' es,
    refreshDevicePresets io s = (Normal tt, s', es)
    /\ bleClient s' = bleClient s
    /\ hasDevicePresetSupport s' = BLE.hasDevicePresetSupport (bleClient s)
    /\ (devicePresets s' = devicePresets s \/ cache_inv s')
    /\ forallb (fun e => negb (is_write e)) es = true.
Proof.
  unfold refreshDevicePresets, on_client.
  destruct (BLE.hasDevicePresetSupport (bleClient s)) eqn:Hs; cbn [negb].
  - cbn [bleClient devicePresets hasDevicePresetSupport].
    pose proof (listDevicePresets_cases io (bleClient s)) as H.
    destruct (BLE.presetListCharacteristic (bleClient s)) as [ch|]; rewrite H.
    + destruct (cbind io decodePresetList) as [l|e] eqn:El.
      * do 2 eexists. split; [reflexivity|]. cbn.
        repeat split; trivial. right. right.
        destruct io as [d|?]; [|discriminate]. cbn in El.
        apply (decodePresetList_slots _ _ El).
      * do 2 eexists. split; [reflexivity|]. cbn.
        repeat split; trivial. left. reflexivity.
    + do 2 eexists. split; [reflexivity|]. cbn.
      repeat split; trivial. left. reflexivity.
  - do 2 eexists. split; [reflexivity|]. cbn.
    repeat split; trivial. right. left. reflexivity.
Qed.

Lemma refresh_cache_inv io s :
  cache_inv s -> cache_inv (snd (fst (refreshDevicePresets io s))).
Proof.
  intros Hs. destruct (refresh_spec io s) as (s' & es & -> & _ & _ & H & _).
  cbn. destruct H as [H|H]; [|exact H].
  unfold cache_inv. rewrite H. exact Hs.
Qed.

Lemma on_client_cache_inv {A} (m : BLE.M A) s :
  cache_inv s -> cache_inv (snd (fst (on_client m s))).
Proof.
  unfold on_client. destruct (m (bleClient s)) as [[r c] es]. intros H; exact H.
Qed.

Lemma and_then_cache_inv {A B} (m : M A) (k : M B) s :
  cache_inv (snd (fst (m s))) ->
  (forall s', cache_inv s' -> cache_inv (snd (fst (k s')))) ->
  cache_inv (snd (fst (and_then m k s))).
Proof.
  unfold and_then. destruct (m s) as [[[a|e] s'] es]; cbn [fst snd].
  - intros H Hk. specialize (Hk s' H).
    destruct (k s') as [[r s''] es']. exact Hk.
  - intros H _. exact H.
Qed.

Lemma call_cache_inv loadFromDevice k s :
  cache_inv s -> cache_inv (call loadFromDevice k s).
Proof.
  intros Hs. destruct k; cbn [call].
  - apply refresh_cache_inv, Hs.
  - apply and_then_cache_inv; [apply on_client_cache_inv, Hs|].
    intros; apply refresh_cache_inv; assumption.
  - apply on_client_cache_inv, Hs.
  - apply and_then_cache_inv; [apply on_client_cache_inv, Hs|].
    intros; apply refresh_cache_inv; assumption.
  - unfold onConnected. cbn [hasDevicePresetSupport].
    destruct (BLE.hasDevicePresetSupport (bleClient s)).
    + apply refresh_cache_inv. exact Hs.
    + exact Hs.
  - exact Hs.
Qed.

Lemma reachable_cache_inv loadFromDevice s :
  reachable loadFromDevice s -> cache_inv s.
Proof.
  induction 1 as [|k s _ IH]; [left; reflexivity|].
  apply call_cache_inv, IH.
Qed.

Lemma no_writes es :
  forallb (fun e => negb (is_write e)) es = true -> List.filter is_write es = [].
Proof.
  induction es as [|e es IH]; [reflexivity|]. intros Hw.
  cbn in Hw. apply andb_prop in Hw. destruct Hw as [He Hes].
  cbn. destruct (is_write e); [discriminate|]. apply IH, Hes.
Qed.

(** [refreshDevicePresets] never throws and never writes to the device: it
    leaves the client as it is, and sets the support flag to what the client
    says. *)
Theorem refresh_never_throws io s :
  exists s' es,
    refreshDevicePresets io s = (Normal tt, s', es)
    /\ bleClient s' = bleClient s
    /\ hasDevicePresetSupport s' = BLE.hasDevicePresetSupport (bleClient s)
    /\ List.filter is_write es = [].
Proof.
  destruct (refresh_spec io s) as (s' & es & E & Hc & Hf & _ & Hw).
  exists s', es. repeat split; trivial. apply no_writes, Hw.
Qed.

(** When the client supports presets but the read fails, or the response
    has fewer than 317 bytes, [refreshDevicePresets] keeps the list it had,
    with the support flag set, and reports the failure on the console. *)
Theorem refresh_failure_keeps_cache s ch io :
  BLE.hasDevicePresetSupport (bleClient s) = true ->
  BLE.presetListCharacteristic (bleClient s) = Some ch ->
  (exists e, io = Throw e)
  \/ (exists bytes, io = Normal (DataView_of bytes) /\ (length bytes < 317)%nat) ->
  refreshDevicePresets io s
  = (Normal tt, mkState (bleClient s) (devicePresets s) true,
     [BLE.ReadFrom ch;
      BLE.ConsoleError (lit "Failed to refresh device presets:")]).
Proof.
  intros Hs Hch Hio.
  unfold refreshDevicePresets, on_client. rewrite Hs. cbn [negb].
  cbn [bleClient devicePresets hasDevicePresetSupport].
  pose proof (listDevicePresets_cases io (bleClient s)) as H.
  rewrite Hch in H. rewrite H.
  destruct Hio as [[e ->]|(bytes & -> & Hlen)]; [reflexivity|].
  cbn [cbind]. unfold decodePresetList. change (Z.to_nat MAX_SLOTS) with 8%nat.
  destruct (CodecFrames.decodePresetLoop_short bytes 8 0 []) as (e & -> & _);
    [lia|lia|].
  reflexivity.
Qed.

Lemma refresh_failure_keeps_cache_witness :
  let c := BLE.after (BLE.connect BLE.new_firmware) BLE.client0 in
  let s := mkState c (imap metadata_of example_records) true in
  refreshDevicePresets (Normal (DataView_of [1; 2; 3])) s
  = (Normal tt, s,
     [BLE.ReadFrom 8%nat;
      BLE.ConsoleError (lit "Failed to refresh device presets:")]).
Proof.
  cbv zeta.
  apply (refresh_failure_keeps_cache
           (mkState (BLE.after (BLE.connect BLE.new_firmware) BLE.client0)
              (imap metadata_of example_records) true)
           8%nat (Normal (DataView_of [1; 2; 3])) eq_refl eq_refl).
  right. exists [1; 2; 3]. split; [reflexivity|cbn; lia].
Defined.

(** On a client with the preset characteristics, a refresh that reads the
    frame of eight valid records sets the list to these records, each with
    its slot, an empty name shown as [[Empty]]. *)
Theorem refresh_lists_records s ch rs :
  BLE.hasDevicePresetSupport (bleClient s) = true ->
  BLE.presetListCharacteristic (bleClient s) = Some ch ->
  length rs = 8%nat ->
  forallb valid_record rs = true ->
  refreshDevicePresets (Normal (DataView_of (list_frame rs))) s
  = (Normal tt, mkState (bleClient s) (imap metadata_of rs) true,
     [BLE.ReadFrom ch]).
Proof.
  intros Hs Hch Hlen Hv.
  unfold refreshDevicePresets, on_client. rewrite Hs. cbn [negb].
  cbn [bleClient devicePresets hasDevicePresetSupport].
  pose proof (listDevicePresets_cases (Normal (DataView_of (list_frame rs)))
                (bleClient s)) as H.
  rewrite Hch in H. rewrite H. cbn [cbind].
  unfold decodePresetList. change (Z.to_nat MAX_SLOTS) with 8%nat.
  rewrite <- Hlen.
  pose proof (CodecSpec.decodePresetLoop_records rs [] 0 [] eq_refl Hv) as E.
  cbn [app] in E. rewrite E. reflexivity.
Qed.

Lemma refresh_lists_records_witness :
  let c := BLE.after (BLE.connect BLE.new_firmware) BLE.client0 in
  refreshDevicePresets (Normal (DataView_of (list_frame example_records)))
    (mkState c [] false)
  = (Normal tt, mkState c (imap metadata_of example_records) true,
     [BLE.ReadFrom 8%nat]).
Proof.
  cbv zeta.
  apply (refresh_lists_records
           (mkState (BLE.after (BLE.connect BLE.new_firmware) BLE.client0)
              [] false) 8%nat example_records eq_refl eq_refl);
    [reflexivity|vm_compute; reflexivity].
Defined.

(** In every state of the composable the list of device presets is empty or
    has exactly the slots 0 to 7 in order, so [getDevicePreset(slot)] always
    answers with an entry for the slot that was asked, and one that is valid
    only for a slot from 0 to 7. *)
Theorem getDevicePreset_slot loadFromDevice s i :
  reachable loadFromDevice s ->
  slot (getDevicePreset s i) = i
  /\ (isValid (getDevicePreset s i) = true -> 0 <= i <= 7).
Proof.
  intros Hr. apply reachable_cache_inv in Hr.
  unfold getDevicePreset. destruct (Z.ltb_spec i 0) as [Hneg|Hpos].
  - cbn. split; [reflexivity|discriminate].
  - destruct (nth_error (devicePresets s) (Z.to_nat i)) as [p|] eqn:Ep.
    + destruct Hr as [Hr|Hr].
      * rewrite Hr in Ep. destruct (Z.to_nat i); discriminate.
      * assert (Hm : nth_error (map slot (devicePresets s)) (Z.to_nat i)
                     = Some (slot p))
          by (rewrite nth_error_map, Ep; reflexivity).
        rewrite Hr in Hm.
        assert (Hlt : (Z.to_nat i < 8)%nat).
        { change 8%nat with (length [0; 1; 2; 3; 4; 5; 6; 7]).
          apply nth_error_Some. rewrite Hm. discriminate. }
        assert (Hi : 0 <= i <= 7) by lia.
        split; [|intros _; exact Hi].
        enough (slot p = Z.of_nat (Z.to_nat i)) by lia.
        revert Hm Hlt. generalize (Z.to_nat i). clear.
        intros [|[|[|[|[|[|[|[|n]]]]]]]] Hm Hlt;
          try (cbn in Hm; injection Hm as <-; reflexivity).
        lia.
    + cbn. split; [reflexivity|discriminate].
Qed.

Lemma getDevicePreset_slot_witness :
  let s := call (BLE.ret tt)
             (CallRefresh (Normal (DataView_of (list_frame example_records))))
             (call (BLE.ret tt) (CallClient (BLE.CallConnect BLE.new_firmware))
                state0) in
  slot (getDevicePreset s 5) = 5
  /\ (isValid (getDevicePreset s 5) = true -> 0 <= 5 <= 7).
Proof.
  cbv zeta. apply (getDevicePreset_slot (BLE.ret tt)).
  apply reachable_call, reachable_call, reachable_new.
Defined.



End DeviceStateSpec.
